(** * The grocery list application (app.js): embedding and verified properties

    The application keeps one list of grocery items in memory, mutates it from
    event handlers (add, toggle, remove, clear completed, import), rebuilds
    its view from the list on every change, and reads its initial state from
    four localStorage slots.

    The handlers are embedded as functions on an explicit [State].  What the
    platform supplies is made explicit:
    - the values typed into the form fields are arguments ([Inputs]);
    - the results of [uuid()] and [Date.now()] are arguments of the handler
      that calls them;
    - [JSON.parse] and [JSON.stringify] are the operations of a class [JSON],
      one instance per type at which the program uses them;
    - a localStorage read is a [Slot].

    Items are records of the shape [addItem] builds, with an optional
    identifier.  [JSON.parse] is used at the type of the value the program
    expects at that place; a text that parses to a value of another shape
    has no counterpart here, except in [loadState], which is generic in what
    it parses, and in the import, where the parsed values on which the
    handler throws ([null], and an [items] array that holds [null]) are
    represented.

    Strings are kept as UTF-8 byte strings.  On well-formed text, equality,
    substring search and whitespace trimming on UTF-8 bytes agree with the
    same operations on the UTF-16 strings of the platform.  Numbers are
    mathematical integers ([Z]); the rounding of doubles beyond 2^53 is not
    represented.  A write to localStorage is taken to succeed.  The clearing
    of the form fields after an add, the wiring of the handlers to the
    document and the asset cache worker are not part of the embedding. *)

From Stdlib Require Import List String Ascii ZArith NArith Bool Lia Arith Permutation.
Import ListNotations.

Local Open Scope string_scope.
Local Open Scope list_scope.
Local Open Scope Z_scope.

(** ** Strings as the platform treats them *)

Module JsString.

Definition code (c : ascii) : N := N_of_ascii c.

(** White space and line terminators of ECMAScript (the characters removed
    by [String.prototype.trim] and skipped by [parseInt]), by the length of
    their UTF-8 encoding. *)

(* TAB, LF, VT, FF, CR, SP *)
Definition ws1 (a : ascii) : bool :=
  (((9 <=? code a) && (code a <=? 13)) || (code a =? 32))%N.

(* U+00A0 *)
Definition ws2 (a b : ascii) : bool :=
  ((code a =? 194) && (code b =? 160))%N.

(* U+1680, U+2000..U+200A, U+2028, U+2029, U+202F, U+205F, U+3000, U+FEFF *)
Definition ws3 (a b c : ascii) : bool :=
  (((code a =? 225) && (code b =? 154) && (code c =? 128))
   || ((code a =? 226) && (code b =? 128)
       && (((128 <=? code c) && (code c <=? 138))
           || (code c =? 168) || (code c =? 169) || (code c =? 175)))
   || ((code a =? 226) && (code b =? 129) && (code c =? 159))
   || ((code a =? 227) && (code b =? 128) && (code c =? 128))
   || ((code a =? 239) && (code b =? 187) && (code c =? 191)))%N.

Fixpoint trimStart (s : string) : string :=
  match s with
  | String a r1 =>
      if ws1 a then trimStart r1 else
      match r1 with
      | String b r2 =>
          if ws2 a b then trimStart r2 else
          match r2 with
          | String c r3 => if ws3 a b c then trimStart r3 else s
          | EmptyString => s
          end
      | EmptyString => s
      end
  | EmptyString => s
  end.

(** The same scan from the end, on the reversed sequence of bytes. *)
Fixpoint dropWsRev (l : list ascii) : list ascii :=
  match l with
  | c :: r1 =>
      if ws1 c then dropWsRev r1 else
      match r1 with
      | b :: r2 =>
          if ws2 b c then dropWsRev r2 else
          match r2 with
          | a :: r3 => if ws3 a b c then dropWsRev r3 else l
          | [] => l
          end
      | [] => l
      end
  | [] => l
  end.

Definition trimEnd (s : string) : string :=
  string_of_list_ascii (rev (dropWsRev (rev (list_ascii_of_string s)))).

(** [s.trim()] *)
Definition trim (s : string) : string := trimEnd (trimStart s).

(** JavaScript truthiness of a string: the empty string is falsy. *)
Definition truthy (s : string) : bool :=
  match s with EmptyString => false | String _ _ => true end.

(** [a || b] on strings. *)
Definition or_else (a b : string) : string := if truthy a then a else b.

Definition digit (c : ascii) : option Z :=
  if ((48 <=? code c) && (code c <=? 57))%N
  then Some (Z.of_N (code c) - 48) else None.

(** Value of the longest prefix of decimal digits; [acc] is the value read
    so far, [None] while no digit has been read. *)
Fixpoint digits (acc : option Z) (s : string) : option Z :=
  match s with
  | String c r =>
      match digit c with
      | Some d => digits (Some (10 * match acc with Some a => a | None => 0 end + d)) r
      | None => acc
      end
  | EmptyString => acc
  end.

(** [parseInt(s, 10)]; [None] is NaN. *)
Definition parseInt (s : string) : option Z :=
  match trimStart s with
  | String "-" r => option_map Z.opp (digits None r)
  | String "+" r => digits None r
  | t => digits None t
  end.

(** [s.includes(q)] *)
Fixpoint includes (s q : string) : bool :=
  prefix q s
  || match s with
     | String _ r => includes r q
     | EmptyString => false
     end.

(** [l.includes(x)] on an array of strings. *)
Definition array_includes (l : list string) (x : string) : bool :=
  existsb (String.eqb x) l.

End JsString.

Import JsString.

(** ** Data model *)

(** An item, as [addItem] builds it (app.js, line 170).  Items read back from
    an imported file may lack an identifier, which the import then assigns;
    [id = None] is such an item.  A quantity of 0 and an empty category are
    the falsy values that the program replaces on use ([it.qty || 1],
    [it.category || ...]). *)
Module Item.

Record t : Type := make {
  id : option string;
  name : string;
  qty : Z;
  category : string;
  note : string;
  done : bool;
  createdAt : Z;
  listId : string
}.

Definition set_id (it : t) (v : option string) : t :=
  make v (name it) (qty it) (category it) (note it) (done it) (createdAt it) (listId it).

Definition set_qty (it : t) (v : Z) : t :=
  make (id it) (name it) v (category it) (note it) (done it) (createdAt it) (listId it).

Definition set_done (it : t) (v : bool) : t :=
  make (id it) (name it) (qty it) (category it) (note it) v (createdAt it) (listId it).

End Item.

(** Categories, used for the dropdown and for grouping. *)
Definition CATS : list string :=
  [ "ירקות"; "פירות"; "חלב"; "בשר ועוף"; "מאפים"; "משקאות"; "ניקיון";
    "טואלטיקה"; "קפואים"; "שימורים"; "מתוקים"; "תבלינים"; "אחרים" ].

(** Commonly purchased items that seed the suggestion list. *)
Definition STARTER_SUGGESTIONS : list string :=
  [ "חלב"; "לחם"; "ביצים"; "גבינה לבנה"; "אשל"; "קוטג'"; "טחינה"; "קפה";
    "סוכר"; "שמן זית"; "אורז"; "פסטה"; "טונה"; "תירס"; "חמאה"; "יוגורט";
    "מלפפונים"; "עגבניות"; "בצל"; "שום"; "תפוחי אדמה"; "בננות"; "תפוחים";
    "עוף"; "סטייק"; "טחינה גולמית"; "פיתות"; "לאפה"; "נייר טואלט"; "סבון";
    "שמפו"; "אבקת כביסה"; "טבליות למדיח"; "מיונז"; "קטשופ"; "חרדל";
    "שוקולד"; "חטיפים"; "ירקות מוקפאים" ].

Definition OTHERS : string := "אחרים".
Definition DEFAULT_LIST_NAME : string := "קניות לבית".

(** The module-level variables [items], [dark], [listName], [listId]. *)
Record State : Type := mkState {
  items : list Item.t;
  dark : bool;
  listName : string;
  listId : string
}.

Definition set_items (st : State) (l : list Item.t) : State :=
  mkState l (dark st) (listName st) (listId st).

(** Values of the form fields read by [addItem]. *)
Record Inputs : Type := mkInputs {
  itemName : string;
  itemQty : string;
  itemCat : string;
  itemNote : string
}.

(** ** List state manager *)

(** [q || 1] on a number: 0 (and NaN, see [read_qty]) is falsy. *)
Definition or_1 (q : Z) : Z := if q =? 0 then 1 else q.

(** [parseInt(itemQtyInput.value, 10) || 1] *)
Definition read_qty (text : string) : Z :=
  match parseInt text with
  | Some n => or_1 n
  | None => 1
  end.

(** The callback of [items.find]: [it.name === name && !it.done]. *)
Definition unfinished_named (name : string) (it : Item.t) : bool :=
  (Item.name it =? name)%string && negb (Item.done it).

(** A write through the reference returned by [items.find(p)]: the first
    element that satisfies [p] is replaced where it stands. *)
Fixpoint assign_first (p : Item.t -> bool) (f : Item.t -> Item.t) (l : list Item.t) : list Item.t :=
  match l with
  | [] => []
  | it :: r => if p it then f it :: r else it :: assign_first p f r
  end.

(** [existing.qty = (existing.qty || 1) + qty] *)
Definition add_qty (qty : Z) (existing : Item.t) : Item.t :=
  Item.set_qty existing (or_1 (Item.qty existing) + qty).

(** [addItem()], lines 159-180.  [u] is the value of the call [uuid()] and
    [now] the value of [Date.now()] on line 170. *)
Definition addItem (u : string) (now : Z) (inp : Inputs) (st : State) : State :=
  let name := trim (itemName inp) in
  if negb (truthy name) then st else
  let qty := read_qty (itemQty inp) in
  let cat := or_else (itemCat inp) OTHERS in
  let note := trim (itemNote inp) in
  match find (unfinished_named name) (items st) with
  | Some existing =>
      set_items st (assign_first (unfinished_named name) (add_qty qty) (items st))
  | None =>
      set_items st (Item.make (Some u) name qty cat note false now (listId st) :: items st)
  end.

(** [a === b] on identifiers; [None] is [undefined]. *)
Definition id_eqb (a b : option string) : bool :=
  match a, b with
  | Some x, Some y => (x =? y)%string
  | None, None => true
  | _, _ => false
  end.

(** [toggleDone(id)], lines 183-187. *)
Definition toggleDone (id : option string) (st : State) : State :=
  set_items st
    (map (fun it => if id_eqb (Item.id it) id
                    then Item.set_done it (negb (Item.done it)) else it)
         (items st)).

(** [removeItem(id)], lines 190-194. *)
Definition removeItem (id : option string) (st : State) : State :=
  set_items st (filter (fun it => negb (id_eqb (Item.id it) id)) (items st)).

(** [clearDoneItems()], lines 197-201. *)
Definition clearDoneItems (st : State) : State :=
  set_items st (filter (fun it => negb (Item.done it)) (items st)).

(** The [input] listener of the list name field, lines 415-418. *)
Definition setListName (value : string) (st : State) : State :=
  mkState (items st) (dark st) (or_else value DEFAULT_LIST_NAME) (listId st).

(** [toggleDark()], lines 124-128. *)
Definition toggleDark (st : State) : State :=
  mkState (items st) (negb (dark st)) (listName st) (listId st).

(** One user action on the list, with the values the platform returns while
    it is handled. *)
Inductive Action : Type :=
| AddItem (inp : Inputs) (u : string) (now : Z)
| ToggleDone (id : option string)
| RemoveItem (id : option string)
| ClearDoneItems.

Definition step (st : State) (a : Action) : State :=
  match a with
  | AddItem inp u now => addItem u now inp st
  | ToggleDone id => toggleDone id st
  | RemoveItem id => removeItem id st
  | ClearDoneItems => clearDoneItems st
  end.

(** The states reached after each action of a sequence, in order. *)
Fixpoint run (st : State) (l : list Action) : list State :=
  match l with
  | [] => []
  | a :: r => step st a :: run (step st a) r
  end.

Definition ids (st : State) : list (option string) := map Item.id (items st).

(** Whether handling [a] in [st] calls [uuid()]: an add that creates an item. *)
Definition calls_uuid (st : State) (a : Action) : option string :=
  match a with
  | AddItem inp u _ =>
      let name := trim (itemName inp) in
      if truthy name then
        match find (unfinished_named name) (items st) with
        | Some _ => None
        | None => Some u
        end
      else None
  | _ => None
  end.

(** Along a sequence of actions, every identifier returned by the generator
    is absent from the list at the time of the call. *)
Fixpoint generator_fresh (st : State) (l : list Action) : Prop :=
  match l with
  | [] => True
  | a :: r =>
      (forall u, calls_uuid st a = Some u -> ~ In (Some u) (ids st))
      /\ generator_fresh (step st a) r
  end.

(** ** Platform interfaces *)

(** [JSON.parse] and [JSON.stringify] at the type the program uses the value
    at.  [JSON_parse s = None] when [JSON.parse(s)] throws. *)
Class JSON (A : Type) : Type := {
  JSON_parse : string -> option A;
  JSON_stringify : A -> string
}.

(** The outcome of [localStorage.getItem(key)]. *)
Inductive Slot : Type :=
| Throws
| Null
| Value (s : string).

Record Storage : Type := mkStorage {
  slot_items : Slot;
  slot_dark : Slot;
  slot_listName : Slot;
  slot_listId : Slot
}.

(** ** Persistence adapter *)

(** The object [{ items, dark, listName, listId }] returned by [loadState].
    [loadState] stores what [JSON.parse] returns without looking into it,
    so the types of the two parsed components are left open. *)
Record Loaded (Items Flag : Type) : Type := mkLoaded {
  loaded_items : Items;
  loaded_dark : Flag;
  loaded_listName : string;
  loaded_listId : string
}.

Arguments mkLoaded {Items Flag}.
Arguments loaded_items {Items Flag}.
Arguments loaded_dark {Items Flag}.
Arguments loaded_listName {Items Flag}.
Arguments loaded_listId {Items Flag}.

Section Persistence.

Context {Items Flag : Type} {JSON_items : JSON Items} {JSON_flag : JSON Flag}.

(** The values of the literals [[]] and [false]. *)
Variable EMPTY_ARRAY : Items.
Variable FALSE : Flag.

(** [loadState()], lines 35-56.  [u] is the value of [uuid()] on line 39.
    Each [try] block leaves its variable at the initial value when a call
    inside it throws. *)
Definition loadState (u : string) (ls : Storage) : Loaded Items Flag :=
  let items :=
    match slot_items ls with
    | Value rawItems =>
        if truthy rawItems then
          match JSON_parse rawItems with
          | Some v => v
          | None => EMPTY_ARRAY
          end
        else EMPTY_ARRAY
    | Null => EMPTY_ARRAY
    | Throws => EMPTY_ARRAY
    end in
  let dark :=
    match slot_dark ls with
    | Value raw =>
        match JSON_parse (or_else raw "false") with
        | Some v => v
        | None => FALSE
        end
    | Null =>
        match JSON_parse "false" with
        | Some v => v
        | None => FALSE
        end
    | Throws => FALSE
    end in
  let listName :=
    match slot_listName ls with
    | Value name => if truthy name then name else DEFAULT_LIST_NAME
    | Null => DEFAULT_LIST_NAME
    | Throws => DEFAULT_LIST_NAME
    end in
  let listId :=
    match slot_listId ls with
    | Value id => if truthy id then id else u
    | Null => u
    | Throws => u
    end in
  mkLoaded items dark listName listId.

End Persistence.

(** [let { items, dark, listName, listId } = loadState()], line 77, when the
    stored items are an array of items and the stored flag is a boolean. *)
Definition initial_state (r : Loaded (list Item.t) bool) : State :=
  mkState (loaded_items r) (loaded_dark r) (loaded_listName r) (loaded_listId r).

(** ** Suggestion engine *)

(** [new Set(l)], read back with [Array.from]: elements in the order of
    their first insertion. *)
Definition Set_add (s : list string) (x : string) : list string :=
  if array_includes s x then s else s ++ [x].

Definition Set_from (l : list string) : list string := fold_left Set_add l [].

(** The candidate pool of [updateSuggestions], line 135. *)
Definition pool (its : list Item.t) : list string :=
  Set_from (STARTER_SUGGESTIONS ++ map Item.name its).

(** [updateSuggestions()], lines 133-154: the names of the buttons shown,
    for the text [input] of the name field. *)
Definition updateSuggestions (input : string) (its : list Item.t) : list string :=
  let query := trim input in
  if negb (truthy query) then firstn 12 (pool its)
  else firstn 12 (filter (fun name => includes name query) (pool its)).

(** ** Renderer *)

(** What a card shows of its item. *)
Record Card : Type := mkCard {
  card_id : option string;
  card_done : bool;
  card_name : string;
  card_qty : Z;
  card_note : string;
  card_category : string
}.

Definition card_of (it : Item.t) : Card :=
  mkCard (Item.id it) (Item.done it) (Item.name it) (or_1 (Item.qty it))
         (Item.note it) (or_else (Item.category it) OTHERS).

(** A child appended to the items container. *)
Inductive Node : Type :=
| Header (text : string)
| CardNode (c : Card).

Record View : Type := mkView {
  children : list Node;
  emptyMessageShown : bool
}.

(** A [Map] from category to group, in insertion order of the keys. *)
Definition Groups : Type := list (string * list Item.t).

Fixpoint Map_get (m : Groups) (k : string) : option (list Item.t) :=
  match m with
  | [] => None
  | (k', g) :: r => if (k' =? k)%string then Some g else Map_get r k
  end.

Definition Map_has (m : Groups) (k : string) : bool :=
  match Map_get m k with Some _ => true | None => false end.

(** [groups.get(k).push(it)] *)
Fixpoint Map_push (m : Groups) (k : string) (it : Item.t) : Groups :=
  match m with
  | [] => []
  | (k', g) :: r =>
      if (k' =? k)%string then (k', g ++ [it]) :: r else (k', g) :: Map_push r k it
  end.

(** The body of the grouping loop, lines 302-306. *)
Definition group_step (groups : Groups) (it : Item.t) : Groups :=
  let key := or_else (Item.category it) OTHERS in
  let groups := if Map_has groups key then groups else groups ++ [(key, [])] in
  Map_push groups key it.

Definition select (filterValue : string) (its : list Item.t) : list Item.t :=
  if (filterValue =? "todo")%string then filter (fun it => negb (Item.done it)) its
  else if (filterValue =? "done")%string then filter (fun it => Item.done it) its
  else its.

Definition emit (cat : string) (group : list Item.t) : list Node :=
  Header cat :: map (fun it => CardNode (card_of it)) group.

(** [render()], lines 289-405, for the value [filterValue] of the filter
    dropdown.  The two [forEach] loops thread the children appended so far
    and the flag [hasItems]. *)
Definition render (filterValue : string) (its : list Item.t) : View :=
  let filtered := select filterValue its in
  let groups := fold_left group_step filtered [] in
  let after_cats :=
    fold_left
      (fun (acc : list Node * bool) cat =>
         match Map_get groups cat with
         | Some (it :: r) => (fst acc ++ emit cat (it :: r), true)
         | _ => acc
         end)
      CATS ([], false) in
  let after_rest :=
    fold_left
      (fun (acc : list Node * bool) (entry : string * list Item.t) =>
         if negb (array_includes CATS (fst entry))
         then (fst acc ++ emit (fst entry) (snd entry), true)
         else acc)
      groups after_cats in
  mkView (fst after_rest) (negb (snd after_rest)).

(** ** Import and export *)

(** The [items] property of a parsed file, as [Array.isArray] sees it.  An
    array whose elements are items is [ArrayOf]; an array that holds [null]
    is [ArrayWithNull]: the callback of [map] reads [it.id] of each element
    and throws on [null]. *)
Inductive ItemsField : Type :=
| NotArray
| ArrayOf (l : list Item.t)
| ArrayWithNull.

(** A parsed value with its properties; an absent property is [None]. *)
Record Document : Type := mkDocument {
  doc_version : option Z;
  doc_listName : option string;
  doc_listId : option string;
  doc_items : ItemsField
}.

(** What [JSON.parse] returns for the text of a file: [null], of which no
    property can be read, or a value whose properties can be read. *)
Inductive Parsed : Type :=
| ParsedNull
| ParsedObject (data : Document).

Definition MSG_INVALID_FILE : string := "קובץ לא תקין".
Definition MSG_LOAD_ERROR : string := "שגיאה בטעינת הקובץ".

(** Truthiness of [it.id]. *)
Definition id_truthy (i : option string) : bool :=
  match i with
  | Some s => truthy s
  | None => false
  end.

(** [data.items.map(it => ({ ...it, id: it.id || uuid() }))]; [fresh k] is
    the value of the call number [k] of [uuid()], [k] calls having been made
    before. *)
Fixpoint ensure_ids (fresh : nat -> string) (k : nat) (l : list Item.t) : list Item.t :=
  match l with
  | [] => []
  | it :: r =>
      if id_truthy (Item.id it)
      then Item.set_id it (Item.id it) :: ensure_ids fresh k r
      else Item.set_id it (Some (fresh k)) :: ensure_ids fresh (S k) r
  end.

(** [if (v) x = v] for an optional string property [v]. *)
Definition adopt (v : option string) (x : string) : string :=
  match v with
  | Some s => if truthy s then s else x
  | None => x
  end.

Section ImportExport.

Context {JSON_document : JSON Parsed}.


(** The [onload] handler of [importJSON(file)], lines 221-239, for the text
    [text] of the file: the new state and the message passed to [alert], if
    any.  The [catch] of line 235 receives what [JSON.parse] throws, what
    reading [data.items] throws when [data] is [null], and what the callback
    of [map] throws on an element that is [null]; the assignment to [items]
    has not happened in any of the three. *)
Definition importJSON (fresh : nat -> string) (text : string) (st : State)
  : State * option string :=
  match JSON_parse text with
  | Some (ParsedObject data) =>
      match doc_items data with
      | ArrayOf its =>
          (mkState (ensure_ids fresh 0 its) (dark st)
                   (adopt (doc_listName data) (listName st))
                   (adopt (doc_listId data) (listId st)),
           None)
      | NotArray => (st, Some MSG_INVALID_FILE)
      | ArrayWithNull => (st, Some MSG_LOAD_ERROR)
      end
  | Some ParsedNull => (st, Some MSG_LOAD_ERROR)
  | None => (st, Some MSG_LOAD_ERROR)
  end.

End ImportExport.

(** ** Persistence: writes *)

(** [localStorage.setItem(key, value)] for each of the four keys.  The write
    is taken to succeed. *)
Definition setItem_items (value : string) (ls : Storage) : Storage :=
  mkStorage (Value value) (slot_dark ls) (slot_listName ls) (slot_listId ls).

Definition setItem_dark (value : string) (ls : Storage) : Storage :=
  mkStorage (slot_items ls) (Value value) (slot_listName ls) (slot_listId ls).

Definition setItem_listName (value : string) (ls : Storage) : Storage :=
  mkStorage (slot_items ls) (slot_dark ls) (Value value) (slot_listId ls).

Definition setItem_listId (value : string) (ls : Storage) : Storage :=
  mkStorage (slot_items ls) (slot_dark ls) (slot_listName ls) (Value value).

(** The argument of [saveState]; a property that is [undefined] is [None]. *)
Record Partial : Type := mkPartial {
  partial_items : option (list Item.t);
  partial_dark : option bool;
  partial_listName : option string;
  partial_listId : option string
}.

(** The memory of the page and the storage behind it. *)
Record World : Type := mkWorld {
  world_state : State;
  world_storage : Storage
}.

(** What the user or the platform does to the page. *)
Inductive Event : Type :=
| ListAction (a : Action)
| DarkToggle
| ListNameInput (value : string)
| FileLoaded (fresh : nat -> string) (text : string).

Section Page.

Context {JSON_items : JSON (list Item.t)} {JSON_bool : JSON bool}
        {JSON_document : JSON Parsed}.

(** [saveState(partial)], lines 61-74. *)
Definition saveState (partial : Partial) (ls : Storage) : Storage :=
  let ls :=
    match partial_items partial with
    | Some v => setItem_items (JSON_stringify v) ls
    | None => ls
    end in
  let ls :=
    match partial_dark partial with
    | Some v => setItem_dark (JSON_stringify v) ls
    | None => ls
    end in
  let ls :=
    match partial_listName partial with
    | Some v => setItem_listName v ls
    | None => ls
    end in
  match partial_listId partial with
  | Some v => setItem_listId v ls
  | None => ls
  end.

(** [saveState({ items })] *)
Definition save_items (st : State) (ls : Storage) : Storage :=
  saveState (mkPartial (Some (items st)) None None None) ls.

(** The handlers, with the write that ends each of them.  [addItem] returns
    before its write when the name is empty. *)
Definition on_addItem (u : string) (now : Z) (inp : Inputs) (w : World) : World :=
  if negb (truthy (trim (itemName inp))) then w
  else
    let st := addItem u now inp (world_state w) in
    mkWorld st (save_items st (world_storage w)).

Definition on_toggleDone (id : option string) (w : World) : World :=
  let st := toggleDone id (world_state w) in
  mkWorld st (save_items st (world_storage w)).

Definition on_removeItem (id : option string) (w : World) : World :=
  let st := removeItem id (world_state w) in
  mkWorld st (save_items st (world_storage w)).

Definition on_clearDoneItems (w : World) : World :=
  let st := clearDoneItems (world_state w) in
  mkWorld st (save_items st (world_storage w)).

Definition on_toggleDark (w : World) : World :=
  let st := toggleDark (world_state w) in
  mkWorld st (saveState (mkPartial None (Some (dark st)) None None) (world_storage w)).

Definition on_listNameInput (value : string) (w : World) : World :=
  let st := setListName value (world_state w) in
  mkWorld st (saveState (mkPartial None None (Some (listName st)) None) (world_storage w)).

(** The [onload] handler of the import: the write of line 229 happens on the
    branch that replaces the list. *)
Definition on_fileLoaded (fresh : nat -> string) (text : string) (w : World) : World :=
  match JSON_parse text with
  | Some (ParsedObject data) =>
      match doc_items data with
      | ArrayOf _ =>
          let st := fst (importJSON fresh text (world_state w)) in
          mkWorld st
                  (saveState (mkPartial (Some (items st)) None
                                        (Some (listName st)) (Some (listId st)))
                             (world_storage w))
      | NotArray => w
      | ArrayWithNull => w
      end
  | Some ParsedNull => w
  | None => w
  end.

Definition handle (w : World) (e : Event) : World :=
  match e with
  | ListAction (AddItem inp u now) => on_addItem u now inp w
  | ListAction (ToggleDone id) => on_toggleDone id w
  | ListAction (RemoveItem id) => on_removeItem id w
  | ListAction ClearDoneItems => on_clearDoneItems w
  | DarkToggle => on_toggleDark w
  | ListNameInput value => on_listNameInput value w
  | FileLoaded fresh text => on_fileLoaded fresh text w
  end.

(** The page after [loadState()] on line 77; [u] is the value of [uuid()]. *)
Definition boot (u : string) (ls : Storage) : World :=
  mkWorld (initial_state (loadState [] false u ls)) ls.

(** The state a new page would start from, on the storage of [w]. *)
Definition reload (u : string) (w : World) : State :=
  initial_state (loadState [] false u (world_storage w)).

End Page.

(** ** Export: the name of the file *)

(** [s.replace(/\s+/g, '_')]: every maximal run of white space becomes one
    underscore.  [in_run] tells that the character before was white space. *)
Definition underscore (in_run : bool) (rest : string) : string :=
  if in_run then rest else String "_" rest.

Fixpoint replace_ws (in_run : bool) (s : string) : string :=
  match s with
  | String a r1 =>
      if ws1 a then underscore in_run (replace_ws true r1) else
      match r1 with
      | String b r2 =>
          if ws2 a b then underscore in_run (replace_ws true r2) else
          match r2 with
          | String c r3 =>
              if ws3 a b c then underscore in_run (replace_ws true r3)
              else String a (replace_ws false r1)
          | EmptyString => String a (replace_ws false r1)
          end
      | EmptyString => String a (replace_ws false r1)
      end
  | EmptyString => EmptyString
  end.

(** [link.download], line 211. *)
Definition download_name (st : State) : string :=
  (or_else (replace_ws false (listName st)) "list" ++ ".json")%string.

(** ** Notions on the page and its storage *)

(** The platform reads back the text it writes for [v], and that text is
    not empty. *)
Definition round_trips {A : Type} {JSON_A : JSON A} (v : A) : Prop :=
  JSON_parse (JSON_stringify v) = Some v /\ truthy (JSON_stringify v) = true.


(** The events other than the import of a file. *)
Definition no_file (e : Event) : Prop :=
  match e with
  | FileLoaded _ _ => False
  | _ => True
  end.

(** ** Notions on the view and on strings *)

(** The cards and the header texts among the children of the container, in
    order. *)
Fixpoint cards_of (l : list Node) : list Card :=
  match l with
  | [] => []
  | CardNode c :: r => c :: cards_of r
  | Header _ :: r => cards_of r
  end.

Fixpoint headers_of (l : list Node) : list string :=
  match l with
  | [] => []
  | Header t :: r => t :: headers_of r
  | CardNode _ :: r => headers_of r
  end.

(** The bytes of a string. *)
Definition bytes (s : string) : list ascii := list_ascii_of_string s.

(** A generator for the examples: [k + 1] times the letter x. *)
Definition tally (k : nat) : string := string_of_list_ascii (repeat "x"%char (S k)).

(** ** Transcription adapter *)

(** The characters of a text in UTF-8, one string each. *)
Fixpoint chars (s : string) : list string :=
  match s with
  | EmptyString => []
  | String a r1 =>
      if (code a <? 192)%N then String a "" :: chars r1 else
      match r1 with
      | EmptyString => [String a ""]
      | String b r2 =>
          if (code a <? 224)%N then String a (String b "") :: chars r2 else
          match r2 with
          | EmptyString => [String a (String b "")]
          | String c r3 =>
              if (code a <? 240)%N then String a (String b (String c "")) :: chars r3 else
              match r3 with
              | EmptyString => [String a (String b (String c ""))]
              | String d r4 => String a (String b (String c (String d ""))) :: chars r4
              end
          end
      end
  end.

Definition text_of (l : list string) : string := fold_right String.append "" l.

(** The character classes [\d], [\s] and [.] of the two patterns. *)
Definition is_digit (c : string) : bool :=
  match c with
  | String a EmptyString => ((48 <=? code a) && (code a <=? 57))%N
  | _ => false
  end.

Definition is_space (c : string) : bool :=
  match c with
  | String a EmptyString => ws1 a
  | String a (String b EmptyString) => ws2 a b
  | String a (String b (String c EmptyString)) => ws3 a b c
  | _ => false
  end.

(* LF, CR, U+2028, U+2029 *)
Definition is_line_terminator (c : string) : bool :=
  match c with
  | String a EmptyString => ((code a =? 10) || (code a =? 13))%N
  | String a (String b (String c EmptyString)) =>
      ((code a =? 226) && (code b =? 128) && ((code c =? 168) || (code c =? 169)))%N
  | _ => false
  end.

Definition is_dot (c : string) : bool := negb (is_line_terminator c).

(** One greedy repetition of a class, [c{at_least,at_most}] ([None]: no upper
    bound), in parentheses when [captured]. *)
Record Piece : Type := mkPiece {
  class : string -> bool;
  at_least : nat;
  at_most : option nat;
  captured : bool
}.

Definition has_room (room : option nat) : bool :=
  match room with
  | Some 0%nat => false
  | _ => true
  end.

Definition less_room (room : option nat) : option nat :=
  match room with
  | Some n => Some (Nat.pred n)
  | None => None
  end.

(** A greedy repetition: take characters of the class while there is room,
    then hand what was taken and the rest to the continuation [k]; when the
    continuation fails, give back the last character and try again. *)
Fixpoint repeat_greedy {R : Type} (p : string -> bool) (room : option nat)
  (s taken : list string) (k : list string -> list string -> option R) : option R :=
  match s with
  | c :: r =>
      if p c && has_room room then
        match repeat_greedy p (less_room room) r (c :: taken) k with
        | Some x => Some x
        | None => k (rev taken) s
        end
      else k (rev taken) s
  | [] => k (rev taken) []
  end.

(** A pattern [^ p1 p2 ... pn $]: what each piece takes, for the first way
    of matching that backtracking finds. *)
Fixpoint match_pieces (ps : list Piece) (s : list string) : option (list (list string)) :=
  match ps with
  | [] => match s with [] => Some [] | _ :: _ => None end
  | p :: ps' =>
      repeat_greedy (class p) (at_most p) s []
        (fun taken rest =>
           if (at_least p <=? List.length taken)%nat
           then option_map (cons taken) (match_pieces ps' rest)
           else None)
  end.

(** [text.match(pattern)]: the texts of the groups in parentheses. *)
Definition groups (ps : list Piece) (takes : list (list string)) : list string :=
  map (fun pt => text_of (snd pt)) (filter (fun pt => captured (fst pt)) (combine ps takes)).

Definition exec (ps : list Piece) (text : string) : option (list string) :=
  option_map (groups ps) (match_pieces ps (chars text)).

(** [/^(\d{1,3})\s+(.+)$/] and [/^(.+)\s+(\d{1,3})$/] *)
Definition DIGITS : Piece := mkPiece is_digit 1 (Some 3%nat) true.
Definition SPACES : Piece := mkPiece is_space 1 None false.
Definition REST : Piece := mkPiece is_dot 1 None true.

Definition QTY_THEN_NAME : list Piece := [DIGITS; SPACES; REST].
Definition NAME_THEN_QTY : list Piece := [REST; SPACES; DIGITS].

(** [m[i]] *)
Definition group (m : list string) (i : nat) : string := nth (Nat.pred i) m "".

(** The [onresult] handler of the recognizer, lines 255-268: the form fields
    after the transcript has been read. *)
Definition onresult (transcript : string) (inp : Inputs) : Inputs :=
  let text := trim transcript in
  match exec QTY_THEN_NAME text with
  | Some m1 => mkInputs (group m1 2) (group m1 1) (itemCat inp) (itemNote inp)
  | None =>
      match exec NAME_THEN_QTY text with
      | Some m2 => mkInputs (group m2 1) (group m2 2) (itemCat inp) (itemNote inp)
      | None => mkInputs text (itemQty inp) (itemCat inp) (itemNote inp)
      end
  end.

(** [onresult] followed by the call of [addItem] on line 269. *)
Definition on_voice (u : string) (now : Z) (transcript : string) (inp : Inputs)
  (st : State) : State :=
  addItem u now (onresult transcript inp) st.

(** What a piece took in a match: characters of its class, as many as its
    bounds allow. *)
Definition fits (p : Piece) (t : list string) : Prop :=
  Forall (fun c => class p c = true) t
  /\ (at_least p <= List.length t)%nat
  /\ (forall n, at_most p = Some n -> (List.length t <= n)%nat).

(** The class fails on the first character of [rest], if there is one. *)
Definition stops_at (p : string -> bool) (rest : list string) : Prop :=
  match rest with
  | [] => True
  | c :: _ => p c = false
  end.

(** ** A platform known on finitely many texts

    An instance of [JSON] given by a table from texts to parsed values and a
    printer; every text outside the table fails to parse. *)

Fixpoint table_lookup {A : Type} (table : list (string * A)) (s : string) : option A :=
  match table with
  | [] => None
  | (k, v) :: r => if (k =? s)%string then Some v else table_lookup r s
  end.

Definition JSON_table {A : Type} (table : list (string * A)) (print : A -> string) : JSON A :=
  {| JSON_parse := table_lookup table; JSON_stringify := print |}.

(** ** Notions used to state the properties *)

(** The distinct elements of a list in the order of their first
    occurrence. *)
Fixpoint first_seen (l : list string) : list string :=
  match l with
  | [] => []
  | x :: r => x :: filter (fun y => negb (y =? x)%string) (first_seen r)
  end.

(** Strings made of white space only. *)
Inductive blank : string -> Prop :=
| blank_empty : blank ""
| blank_1 a s : ws1 a = true -> blank s -> blank (String a s)
| blank_2 a b s : ws2 a b = true -> blank s -> blank (String a (String b s))
| blank_3 a b c s : ws3 a b c = true -> blank s -> blank (String a (String b (String c s))).

(** The category an item is grouped under. *)
Definition group_key (it : Item.t) : string := or_else (Item.category it) OTHERS.

(** [it] is grouped under the category [k]. *)
Definition key_is (k : string) (it : Item.t) : bool := (group_key it =? k)%string.

(** The list name and the list identifier are set. *)
Definition named (st : State) : Prop :=
  truthy (listName st) = true /\ truthy (listId st) = true.



(** [after] is [before] without the items that fail [keep], those that pass
    standing in the order they had. *)
Inductive kept_in_order (keep : Item.t -> bool) : list Item.t -> list Item.t -> Prop :=
| kept_nil : kept_in_order keep [] []
| kept_keep it before after :
    keep it = true -> kept_in_order keep before after ->
    kept_in_order keep (it :: before) (it :: after)
| kept_drop it before after :
    keep it = false -> kept_in_order keep before after ->
    kept_in_order keep (it :: before) after.

(** The double quote. *)
Definition dq : string := String (ascii_of_nat 34) "".

(** The text of a file whose [items] is a string. *)
Definition TEXT_ITEMS_NOT_ARRAY : string :=
  ("{" ++ dq ++ "items" ++ dq ++ ": " ++ dq ++ "not-an-array" ++ dq ++ "}")%string.

(** The text of a file whose [items] is an array that holds [null]. *)
Definition TEXT_ITEMS_WITH_NULL : string :=
  ("{" ++ dq ++ "items" ++ dq ++ ": [null]}")%string.

(** A printer for the examples: the list name, the list identifier and one
    letter for the array of items and for each item in it. *)
Definition print_summary (v : Parsed) : string :=
  match v with
  | ParsedNull => "null"
  | ParsedObject data =>
      (adopt (doc_listName data) "" ++ " " ++ adopt (doc_listId data) "" ++ " " ++
       match doc_items data with
       | ArrayOf l => tally (List.length l)
       | _ => ""
       end)%string
  end.

(** * Properties *)

(** ** Strings *)

Lemma truthy_false_iff (s : string) : truthy s = false <-> s = "".
Proof. destruct s; simpl; split; congruence. Qed.

Lemma truthy_true_iff (s : string) : truthy s = true <-> s <> "".
Proof. destruct s; simpl; split; congruence. Qed.

Lemma or_else_truthy (a b : string) : truthy b = true -> truthy (or_else a b) = true.
Proof. unfold or_else. destruct (truthy a) eqn:E; auto. Qed.

Lemma blank_trimStart (s : string) : blank s -> trimStart s = "".
Proof.
  induction 1 as [| a s Ha _ IH | a b s Hab _ IH | a b c s Habc _ IH]; simpl.
  - reflexivity.
  - now rewrite Ha.
  - destruct (ws1 a) eqn:Ea; [| now rewrite Hab].
    exfalso. unfold ws2, ws1 in *.
    apply andb_true_iff in Hab as [Ha' _]. apply N.eqb_eq in Ha'.
    rewrite Ha' in Ea. discriminate.
  - destruct (ws1 a) eqn:Ea.
    + exfalso. unfold ws3, ws1 in *.
      destruct (code a) as [| p]; [discriminate |].
      repeat (apply orb_true_iff in Habc as [Habc | Habc]);
        repeat (apply andb_true_iff in Habc as [Habc ?]);
        apply N.eqb_eq in Habc; rewrite Habc in Ea; discriminate.
    + destruct (ws2 a b) eqn:Eab; [| now rewrite Habc].
      exfalso. unfold ws3, ws2 in *.
      apply andb_true_iff in Eab as [Ha' _]. apply N.eqb_eq in Ha'.
      rewrite Ha' in Habc. discriminate.
Qed.

Lemma blank_trim (s : string) : blank s -> trim s = "".
Proof. intros H. unfold trim. now rewrite (blank_trimStart s H). Qed.

Lemma prefix_app (q s : string) : prefix q s = true <-> exists b, s = (q ++ b)%string.
Proof.
  revert s. induction q as [| c q IH]; intros s.
  - split; [intros _; now exists s | intros _; now destruct s].
  - destruct s as [| d s]; simpl.
    + split; [discriminate | intros [b Hb]; discriminate].
    + destruct (ascii_dec c d) as [-> | Hne].
      * rewrite IH. split; intros [b Hb]; exists b; congruence.
      * split; [discriminate | intros [b Hb]; congruence].
Qed.

Lemma includes_cons (c : ascii) (s q : string) :
  includes (String c s) q = prefix q (String c s) || includes s q.
Proof. reflexivity. Qed.

Lemma includes_substring (s q : string) :
  includes s q = true <-> exists a b, s = (a ++ q ++ b)%string.
Proof.
  induction s as [| c s IH].
  - change (includes "" q) with (prefix q "" || false).
    rewrite orb_false_r. split.
    + intros H. apply prefix_app in H as [b Hb]. now exists "", b.
    + intros [a [b Hab]]. apply prefix_app.
      destruct a; simpl in Hab; [now exists b | discriminate].
  - rewrite includes_cons, orb_true_iff. split.
    + intros [H | H].
      * apply prefix_app in H as [b Hb]. now exists "", b.
      * apply IH in H as [a [b Hab]]. exists (String c a), b. simpl. now rewrite Hab.
    + intros [a [b Hab]]. destruct a as [| d a]; simpl in Hab.
      * left. apply prefix_app. now exists b.
      * right. apply IH. exists a, b. congruence.
Qed.

(** ** List state manager *)

Lemma unfinished_named_true (name : string) (it : Item.t) :
  unfinished_named name it = true <-> Item.name it = name /\ Item.done it = false.
Proof.
  unfold unfinished_named.
  rewrite andb_true_iff, String.eqb_eq, negb_true_iff. tauto.
Qed.

Lemma unfinished_named_false (name : string) (it : Item.t) :
  unfinished_named name it = false <-> ~ (Item.name it = name /\ Item.done it = false).
Proof.
  rewrite <- unfinished_named_true. destruct (unfinished_named name it); split; congruence.
Qed.

Lemma find_none_iff {A : Type} (p : A -> bool) (l : list A) :
  find p l = None <-> forall x, In x l -> p x = false.
Proof.
  split; [apply find_none |].
  induction l as [| a l IH]; simpl; intros H; [reflexivity |].
  rewrite (H a (or_introl eq_refl)). apply IH. intros x Hx. apply H. now right.
Qed.

(** The element found by [find] is the first that satisfies the predicate,
    and [assign_first] rewrites it where it stands. *)
Lemma find_assign_first (p : Item.t -> bool) (f : Item.t -> Item.t) (l : list Item.t) (x : Item.t) :
  find p l = Some x ->
  exists l1 l2,
    l = l1 ++ x :: l2 /\ p x = true /\ Forall (fun y => p y = false) l1
    /\ assign_first p f l = l1 ++ f x :: l2.
Proof.
  induction l as [| a l IH]; simpl; [discriminate |].
  destruct (p a) eqn:E.
  - intros [= ->]. exists [], l. simpl. auto.
  - intros H. destruct (IH H) as (l1 & l2 & -> & Hx & Hl1 & Hf).
    exists (a :: l1), l2. simpl. rewrite Hf. auto.
Qed.

(** Conversely, a first element satisfying the predicate is the one found. *)
Lemma find_first (p : Item.t -> bool) (l1 l2 : list Item.t) (x : Item.t) :
  Forall (fun y => p y = false) l1 -> p x = true -> find p (l1 ++ x :: l2) = Some x.
Proof.
  induction 1 as [| a l1 Ha _ IH]; simpl; intros Hx.
  - now rewrite Hx.
  - rewrite Ha. auto.
Qed.

Lemma addItem_blank (u : string) (now : Z) (inp : Inputs) (st : State) :
  truthy (trim (itemName inp)) = false -> addItem u now inp st = st.
Proof. intros H. unfold addItem. now rewrite H. Qed.

Lemma addItem_merge (u : string) (now : Z) (inp : Inputs) (st : State) (existing : Item.t) :
  truthy (trim (itemName inp)) = true ->
  find (unfinished_named (trim (itemName inp))) (items st) = Some existing ->
  addItem u now inp st =
  set_items st (assign_first (unfinished_named (trim (itemName inp)))
                             (add_qty (read_qty (itemQty inp))) (items st)).
Proof. intros H1 H2. unfold addItem. now rewrite H1, H2. Qed.

Lemma addItem_create (u : string) (now : Z) (inp : Inputs) (st : State) :
  truthy (trim (itemName inp)) = true ->
  find (unfinished_named (trim (itemName inp))) (items st) = None ->
  addItem u now inp st =
  set_items st (Item.make (Some u) (trim (itemName inp)) (read_qty (itemQty inp))
                          (or_else (itemCat inp) OTHERS) (trim (itemNote inp))
                          false now (listId st) :: items st).
Proof. intros H1 H2. unfold addItem. now rewrite H1, H2. Qed.

Lemma addItem_merge_general (u : string) (now : Z) (inp : Inputs) (st : State) :
  trim (itemName inp) <> "" ->
  (exists it, In it (items st)
              /\ Item.name it = trim (itemName inp) /\ Item.done it = false) ->
  exists l1 target l2,
    items st = l1 ++ target :: l2
    /\ Item.name target = trim (itemName inp) /\ Item.done target = false
    /\ items (addItem u now inp st)
       = l1 ++ Item.set_qty target (or_1 (Item.qty target) + read_qty (itemQty inp)) :: l2
    /\ List.length (items (addItem u now inp st)) = List.length (items st).
Proof.
  intros Hname [it (Hin & Hn & Hd)].
  apply truthy_true_iff in Hname.
  destruct (find (unfinished_named (trim (itemName inp))) (items st)) as [x |] eqn:F.
  - destruct (find_assign_first _ (add_qty (read_qty (itemQty inp))) _ _ F)
      as (l1 & l2 & Hl & Hx & _ & Hf).
    apply unfinished_named_true in Hx as [Hxn Hxd].
    exists l1, x, l2. rewrite (addItem_merge u now inp st x Hname F). simpl.
    rewrite Hf, Hl. repeat split; auto.
    rewrite !List.length_app. reflexivity.
  - exfalso. rewrite find_none_iff in F. specialize (F it Hin).
    apply unfinished_named_false in F. tauto.
Qed.


Lemma toggle_other_ids (id : option string) (l : list Item.t) :
  ~ In id (map Item.id l) ->
  map (fun it => if id_eqb (Item.id it) id
                 then Item.set_done it (negb (Item.done it)) else it) l = l.
Proof.
  induction l as [| a l IH]; simpl; intros H; [reflexivity |].
  rewrite IH by tauto.
  destruct (id_eqb (Item.id a) id) eqn:E; [| reflexivity].
  exfalso. apply H. left.
  destruct (Item.id a) as [x |], id as [y |]; simpl in E; try discriminate; [| reflexivity].
  apply String.eqb_eq in E. now subst.
Qed.






(** C10.  When an add merges, the item written is the first item of the
    list that has the name and is not done; it stays at its position and
    only its quantity changes; every other item, and the rest of the state,
    is as before; the category and the note typed with the add, like the
    values of the identifier generator and of the clock, have no effect. *)
Theorem addItem_merge_frame
  (u : string) (now : Z) (inp : Inputs) (st : State)
  (l1 l2 : list Item.t) (target : Item.t) :
  trim (itemName inp) <> "" ->
  items st = l1 ++ target :: l2 ->
  Forall (fun it => ~ (Item.name it = trim (itemName inp) /\ Item.done it = false)) l1 ->
  Item.name target = trim (itemName inp) ->
  Item.done target = false ->
  exists target',
    addItem u now inp st
    = mkState (l1 ++ target' :: l2) (dark st) (listName st) (listId st)
    /\ Item.qty target' = or_1 (Item.qty target) + read_qty (itemQty inp)
    /\ Item.id target' = Item.id target
    /\ Item.name target' = Item.name target
    /\ Item.category target' = Item.category target
    /\ Item.note target' = Item.note target
    /\ Item.done target' = Item.done target
    /\ Item.createdAt target' = Item.createdAt target
    /\ Item.listId target' = Item.listId target
    /\ forall u' now' cat' note',
        addItem u' now' (mkInputs (itemName inp) (itemQty inp) cat' note') st
        = addItem u now inp st.
Proof.
  intros Hname Hl Hl1 Hn Hd.
  apply truthy_true_iff in Hname.
  assert (Hfind : find (unfinished_named (trim (itemName inp))) (items st) = Some target).
  { rewrite Hl. apply find_first.
    - eapply Forall_impl; [| exact Hl1]. intros a Ha. now apply unfinished_named_false.
    - now apply unfinished_named_true. }
  destruct (find_assign_first _ (add_qty (read_qty (itemQty inp))) _ _ Hfind)
    as (k1 & k2 & Hk & Hx & Hk1 & Hf).
  assert (Hsame : k1 = l1 /\ k2 = l2).
  { clear Hf Hfind. rewrite Hl in Hk. clear Hl.
    revert k1 Hk Hk1. induction Hl1 as [| a l1 Ha _ IH]; intros k1 Hk Hk1.
    - destruct k1 as [| b k1]; simpl in Hk.
      + split; congruence.
      + exfalso. injection Hk as <- _. inversion Hk1; subst. congruence.
    - destruct k1 as [| b k1]; simpl in Hk.
      + exfalso. injection Hk as -> _. apply Ha. auto.
      + injection Hk as <- Hk. inversion Hk1; subst.
        destruct (IH k1 Hk H2) as [-> ->]. auto. }
  destruct Hsame as [-> ->].
  exists (add_qty (read_qty (itemQty inp)) target).
  rewrite (addItem_merge u now inp st target Hname Hfind), Hf.
  repeat split; try reflexivity.
  intros u' now' cat' note'.
  rewrite (addItem_merge u' now' (mkInputs (itemName inp) (itemQty inp) cat' note') st target);
    simpl; auto.
  now rewrite Hf.
Qed.

Lemma addItem_merge_frame_witness :
  let done_milk := Item.make (Some "a1") "Milk" 1 "Dairy" "" true 3 "L1" in
  let first_milk := Item.make (Some "a2") "Milk" 2 "Dairy" "low fat" false 4 "L1" in
  let second_milk := Item.make (Some "a3") "Milk" 5 "Other" "" false 5 "L1" in
  let st := mkState [done_milk; first_milk; second_milk] true "Home" "L1" in
  exists target',
    addItem "a4" 9 (mkInputs "Milk" "3" "Bakery" "oat") st
    = mkState ([done_milk] ++ target' :: [second_milk]) true "Home" "L1"
    /\ Item.qty target' = 5
    /\ Item.note target' = "low fat"
    /\ Item.category target' = "Dairy".
Proof.
  intros done_milk first_milk second_milk st.
  destruct (addItem_merge_frame "a4" 9 (mkInputs "Milk" "3" "Bakery" "oat") st
              [done_milk] [second_milk] first_milk)
    as (target' & Hst & Hqty & _ & _ & Hcat & Hnote & _).
  - vm_compute. discriminate.
  - reflexivity.
  - constructor; [| constructor]. simpl. intros [_ H]. discriminate.
  - reflexivity.
  - reflexivity.
  - exists target'. repeat split; assumption.
Defined.

(** C9.  An add whose name is empty once trimmed, in particular a name made
    of white space only, returns the state it was given. *)
Theorem addItem_blank_name (u : string) (now : Z) (inp : Inputs) (st : State) :
  (trim (itemName inp) = "" -> addItem u now inp st = st)
  /\ (blank (itemName inp) -> addItem u now inp st = st).
Proof.
  split; intros H.
  - apply addItem_blank. now apply truthy_false_iff.
  - apply addItem_blank. apply truthy_false_iff. now apply blank_trim.
Qed.

Lemma addItem_blank_name_witness :
  let st := mkState [Item.make (Some "a1") "Milk" 1 "Dairy" "" false 3 "L1"] false "Home" "L1" in
  trim "  	 " = "" /\ addItem "a2" 4 (mkInputs "  	 " "2" "Dairy" "x") st = st.
Proof.
  intros st.
  assert (H : trim (itemName (mkInputs "  	 " "2" "Dairy" "x")) = "") by reflexivity.
  split; [exact H |].
  exact (proj1 (addItem_blank_name "a2" 4 (mkInputs "  	 " "2" "Dairy" "x") st) H).
Defined.

(** ** Quantities *)

Lemma or_1_nonzero (q : Z) : or_1 q <> 0.
Proof. unfold or_1. destruct (q =? 0) eqn:E; [lia | now apply Z.eqb_neq]. Qed.

Lemma read_qty_nonzero (text : string) : read_qty text <> 0.
Proof. unfold read_qty. destruct (parseInt text); [apply or_1_nonzero | lia]. Qed.







(** ** Identifiers *)

Lemma ids_assign_first (p : Item.t -> bool) (f : Item.t -> Item.t) (l : list Item.t) :
  (forall it, Item.id (f it) = Item.id it) ->
  map Item.id (assign_first p f l) = map Item.id l.
Proof.
  intros Hf. induction l as [| a l IH]; simpl; [reflexivity |].
  destruct (p a); simpl; [now rewrite Hf | now rewrite IH].
Qed.

(** Dropping items keeps the identifiers that remain distinct. *)
Lemma ids_filter_NoDup (keep : Item.t -> bool) (its : list Item.t) :
  NoDup (map Item.id its) -> NoDup (map Item.id (filter keep its)).
Proof.
  induction its as [| it its IH]; simpl; intros H; [constructor |].
  inversion H as [| x xs Hnotin Hnd]; subst.
  destruct (keep it); simpl; [| auto].
  constructor; [| auto].
  intros Hin. apply Hnotin. apply in_map_iff in Hin as (y & Hy & Hyin).
  apply filter_In in Hyin as [Hyin _]. apply in_map_iff. eauto.
Qed.

Lemma step_ids_NoDup (st : State) (a : Action) :
  NoDup (ids st) ->
  (forall u, calls_uuid st a = Some u -> ~ In (Some u) (ids st)) ->
  NoDup (ids (step st a)).
Proof.
  intros Hnd Hfresh. destruct a as [inp u now | id | id |]; unfold ids in *; simpl in *.
  - unfold addItem.
    destruct (truthy (trim (itemName inp))); simpl; [| exact Hnd].
    destruct (find _ (items st)); simpl.
    + rewrite ids_assign_first; [exact Hnd | reflexivity].
    + constructor; [apply Hfresh; reflexivity | exact Hnd].
  - rewrite map_map.
    erewrite map_ext; [exact Hnd |].
    intros it. simpl. now destruct (id_eqb (Item.id it) id).
  - now apply ids_filter_NoDup.
  - now apply ids_filter_NoDup.
Qed.

(** C2.  Starting from a list whose identifiers are pairwise distinct, and
    as long as each identifier the generator returns is absent from the list
    when it is returned, the identifiers are pairwise distinct after every
    action of any sequence of adds, toggles, removals and clearings. *)
Theorem identifiers_stay_distinct (l : list Action) (st : State) :
  NoDup (ids st) ->
  generator_fresh st l ->
  Forall (fun st' => NoDup (ids st')) (run st l).
Proof.
  revert st. induction l as [| a l IH]; intros st Hnd Hfresh; simpl.
  - constructor.
  - destruct Hfresh as [Ha Hl].
    assert (Hstep : NoDup (ids (step st a))) by now apply step_ids_NoDup.
    constructor; [exact Hstep | now apply IH].
Qed.

Lemma identifiers_stay_distinct_witness :
  let st := mkState [Item.make (Some "a1") "Milk" 2 "Dairy" "" false 3 "L1";
                     Item.make None "Eggs" 12 "Dairy" "" true 2 "L1"]
                    false "Home" "L1" in
  let l := [AddItem (mkInputs "Bread" "1" "Bakery" "") "a2" 4;
            AddItem (mkInputs "Milk" "1" "" "") "a1" 5;
            ToggleDone (Some "a2");
            AddItem (mkInputs "Bread" "2" "Bakery" "") "a3" 6;
            RemoveItem (Some "a1");
            ClearDoneItems] in
  Forall (fun st' => NoDup (ids st')) (run st l).
Proof.
  intros st l. apply identifiers_stay_distinct.
  - repeat constructor; simpl; intuition discriminate.
  - simpl. repeat split; intros u Hu; vm_compute in Hu; try discriminate;
      injection Hu as <-; vm_compute; intuition discriminate.
Defined.

(** ** Persistence adapter *)

Section LoadState.

Context {Items Flag : Type} {JSON_items : JSON Items} {JSON_flag : JSON Flag}.
Variable EMPTY_ARRAY : Items.
Variable FALSE : Flag.

Lemma loadState_named_fields (u : string) (ls : Storage) :
  u <> "" ->
  truthy (loaded_listName (loadState EMPTY_ARRAY FALSE u ls)) = true
  /\ truthy (loaded_listId (loadState EMPTY_ARRAY FALSE u ls)) = true.
Proof.
  intros Hu. apply truthy_true_iff in Hu. unfold loadState; simpl. split.
  - destruct (slot_listName ls) as [| | name]; try reflexivity.
    destruct (truthy name) eqn:E; [exact E | reflexivity].
  - destruct (slot_listId ls) as [| | id]; try exact Hu.
    destruct (truthy id) eqn:E; [exact E | exact Hu].
Qed.

(** C8.  [loadState] is a total function of the four slots and of the
    identifier it generates.  A slot that cannot be read, is absent, is
    empty or (for the two JSON slots) does not parse gives its default: no
    items, theme off, the default list name, the generated identifier.  A
    slot that holds a value keeps it.  Each component of the result depends
    on its own slot only. *)
Theorem loadState_slot_by_slot (u : string) (ls : Storage) :
  JSON_parse "false" = Some FALSE ->
  ((slot_items ls = Throws \/ slot_items ls = Null \/ slot_items ls = Value ""
    \/ (exists raw, slot_items ls = Value raw /\ JSON_parse raw = @None Items) ->
    loaded_items (loadState EMPTY_ARRAY FALSE u ls) = EMPTY_ARRAY)
   /\ (forall raw v, slot_items ls = Value raw -> raw <> "" -> JSON_parse raw = Some v ->
                     loaded_items (loadState EMPTY_ARRAY FALSE u ls) = v)
   /\ (forall u' ls', slot_items ls' = slot_items ls ->
                      loaded_items (loadState EMPTY_ARRAY FALSE u' ls')
                      = loaded_items (loadState EMPTY_ARRAY FALSE u ls)))
  /\ ((slot_dark ls = Throws \/ slot_dark ls = Null \/ slot_dark ls = Value ""
       \/ (exists raw, slot_dark ls = Value raw /\ JSON_parse raw = @None Flag) ->
       loaded_dark (loadState EMPTY_ARRAY FALSE u ls) = FALSE)
      /\ (forall raw v, slot_dark ls = Value raw -> raw <> "" -> JSON_parse raw = Some v ->
                        loaded_dark (loadState EMPTY_ARRAY FALSE u ls) = v)
      /\ (forall u' ls', slot_dark ls' = slot_dark ls ->
                         loaded_dark (loadState EMPTY_ARRAY FALSE u' ls')
                         = loaded_dark (loadState EMPTY_ARRAY FALSE u ls)))
  /\ ((slot_listName ls = Throws \/ slot_listName ls = Null \/ slot_listName ls = Value "" ->
       loaded_listName (loadState EMPTY_ARRAY FALSE u ls) = DEFAULT_LIST_NAME)
      /\ (forall name, slot_listName ls = Value name -> name <> "" ->
                       loaded_listName (loadState EMPTY_ARRAY FALSE u ls) = name)
      /\ (forall u' ls', slot_listName ls' = slot_listName ls ->
                         loaded_listName (loadState EMPTY_ARRAY FALSE u' ls')
                         = loaded_listName (loadState EMPTY_ARRAY FALSE u ls)))
  /\ ((slot_listId ls = Throws \/ slot_listId ls = Null \/ slot_listId ls = Value "" ->
       loaded_listId (loadState EMPTY_ARRAY FALSE u ls) = u)
      /\ (forall id, slot_listId ls = Value id -> id <> "" ->
                     loaded_listId (loadState EMPTY_ARRAY FALSE u ls) = id)
      /\ (forall ls', slot_listId ls' = slot_listId ls ->
                      loaded_listId (loadState EMPTY_ARRAY FALSE u ls')
                      = loaded_listId (loadState EMPTY_ARRAY FALSE u ls))).
Proof.
  intros Hfalse. unfold loadState;
    cbn [loaded_items loaded_dark loaded_listName loaded_listId].
  repeat split.
  - intros [H | [H | [H | (raw & H & Hraw)]]]; rewrite H; try reflexivity.
    destruct (truthy raw); [now rewrite Hraw | reflexivity].
  - intros raw v H Hne Hraw. apply truthy_true_iff in Hne. now rewrite H, Hne, Hraw.
  - intros u' ls' H. now rewrite H.
  - intros [H | [H | [H | (raw & H & Hraw)]]]; rewrite H; try reflexivity.
    + now rewrite Hfalse.
    + cbn [or_else truthy]. now rewrite Hfalse.
    + unfold or_else. destruct (truthy raw); [now rewrite Hraw | now rewrite Hfalse].
  - intros raw v H Hne Hraw. apply truthy_true_iff in Hne.
    rewrite H. unfold or_else. now rewrite Hne, Hraw.
  - intros u' ls' H. now rewrite H.
  - intros [H | [H | H]]; now rewrite H.
  - intros name H Hne. apply truthy_true_iff in Hne. now rewrite H, Hne.
  - intros u' ls' H. now rewrite H.
  - intros [H | [H | H]]; now rewrite H.
  - intros id H Hne. apply truthy_true_iff in Hne. now rewrite H, Hne.
  - intros ls' H. now rewrite H.
Qed.

End LoadState.

Lemma initial_state_named `{JSON (list Item.t)} `{JSON bool} (u : string) (ls : Storage) :
  u <> "" -> named (initial_state (loadState [] false u ls)).
Proof. intros Hu. now apply loadState_named_fields. Qed.

Lemma loadState_slot_by_slot_witness :
  let parse_items := JSON_table [("[]", @nil Item.t)] (fun _ => "[]") in
  let parse_bool :=
    JSON_table [("false", false); ("true", true)]
               (fun b : bool => if b then "true" else "false") in
  let ls := mkStorage (Value "[{") (Value "true") Null (Value "L7") in
  let r := @loadState _ _ parse_items parse_bool [] false "generated" ls in
  loaded_items r = [] /\ loaded_dark r = true
  /\ loaded_listName r = DEFAULT_LIST_NAME /\ loaded_listId r = "L7".
Proof.
  intros parse_items parse_bool ls r.
  destruct (@loadState_slot_by_slot _ _ parse_items parse_bool [] false "generated" ls eq_refl)
    as ((Hitems & _) & (_ & Hdark & _) & (Hname & _) & (_ & Hid & _)).
  split; [| split; [| split]].
  - apply Hitems. right. right. right. exists "[{". split; reflexivity.
  - apply (Hdark "true"); [reflexivity | discriminate | reflexivity].
  - apply Hname. right. left. reflexivity.
  - apply (Hid "L7"); [reflexivity | discriminate].
Defined.

(** ** Import and export *)




Lemma adopt_truthy (s x : string) : truthy s = true -> adopt (Some s) x = s.
Proof. intros H. simpl. now rewrite H. Qed.

Lemma adopt_named (v : option string) (x : string) :
  truthy x = true -> truthy (adopt v x) = true.
Proof.
  intros Hx. destruct v as [s |]; simpl; [| exact Hx].
  destruct (truthy s) eqn:E; [exact E | exact Hx].
Qed.

Lemma step_named (st : State) (a : Action) : named st -> named (step st a).
Proof.
  intros H. destruct a as [inp u now | id | id |]; simpl; try exact H.
  unfold addItem. destruct (truthy (trim (itemName inp))); [| exact H].
  destruct (find _ (items st)); exact H.
Qed.

Lemma setListName_named (value : string) (st : State) : named st -> named (setListName value st).
Proof.
  intros [_ H]. split; [| exact H]. simpl. now apply or_else_truthy.
Qed.

Section ImportExportProperties.

Context {JSON_document : JSON Parsed}.

Lemma importJSON_named (fresh : nat -> string) (text : string) (st : State) :
  named st -> named (fst (importJSON fresh text st)).
Proof.
  intros [H1 H2]. unfold importJSON.
  destruct (JSON_parse text) as [[| data] |]; [now split | | now split].
  destruct (doc_items data); [now split | | now split].
  split; simpl; now apply adopt_named.
Qed.

(** C4, as the program has it.  The handler shows the invalid-file message
    when the text parses to a value other than [null] whose [items] is not
    an array.  It shows the load error, a different message, when the text
    does not parse, and also when it parses to [null] or to a value whose
    [items] is an array that holds [null].  In all these cases it returns
    the state it was given: the state changes only if the text parses and
    [items] is an array. *)
Theorem importJSON_rejects (fresh : nat -> string) (text : string) (st : State) :
  (forall data, JSON_parse text = Some (ParsedObject data) -> doc_items data = NotArray ->
                importJSON fresh text st = (st, Some MSG_INVALID_FILE))
  /\ (JSON_parse text = @None Parsed ->
      importJSON fresh text st = (st, Some MSG_LOAD_ERROR))
  /\ (JSON_parse text = Some ParsedNull ->
      importJSON fresh text st = (st, Some MSG_LOAD_ERROR))
  /\ (forall data, JSON_parse text = Some (ParsedObject data) -> doc_items data = ArrayWithNull ->
                   importJSON fresh text st = (st, Some MSG_LOAD_ERROR))
  /\ MSG_INVALID_FILE <> MSG_LOAD_ERROR
  /\ (fst (importJSON fresh text st) <> st ->
      exists data its,
        JSON_parse text = Some (ParsedObject data) /\ doc_items data = ArrayOf its).
Proof.
  unfold importJSON. split; [| split; [| split; [| split; [| split]]]].
  - intros data H Hitems. now rewrite H, Hitems.
  - intros H. now rewrite H.
  - intros H. now rewrite H.
  - intros data H Hitems. now rewrite H, Hitems.
  - discriminate.
  - destruct (JSON_parse text) as [[| data] |]; [simpl; congruence | | simpl; congruence].
    destruct (doc_items data) as [| its |] eqn:E; [simpl; congruence | | simpl; congruence].
    intros _. now exists data, its.
Qed.


End ImportExportProperties.

Lemma importJSON_rejects_witness :
  let platform :=
    JSON_table [(TEXT_ITEMS_NOT_ARRAY, ParsedObject (mkDocument None None None NotArray));
                ("null", ParsedNull);
                (TEXT_ITEMS_WITH_NULL, ParsedObject (mkDocument None None None ArrayWithNull))]
               print_summary in
  let st := mkState [Item.make (Some "a1") "Milk" 2 "Dairy" "" false 3 "L1"] true "Home" "L1" in
  @importJSON platform (fun _ => "new") TEXT_ITEMS_NOT_ARRAY st = (st, Some MSG_INVALID_FILE)
  /\ @importJSON platform (fun _ => "new") "{ items" st = (st, Some MSG_LOAD_ERROR)
  /\ @importJSON platform (fun _ => "new") "null" st = (st, Some MSG_LOAD_ERROR)
  /\ @importJSON platform (fun _ => "new") TEXT_ITEMS_WITH_NULL st = (st, Some MSG_LOAD_ERROR).
Proof.
  intros platform st. split; [| split; [| split]].
  - apply (proj1 (@importJSON_rejects platform (fun _ => "new") TEXT_ITEMS_NOT_ARRAY st)
             (mkDocument None None None NotArray)); reflexivity.
  - apply (proj1 (proj2 (@importJSON_rejects platform (fun _ => "new") "{ items" st))).
    reflexivity.
  - apply (proj1 (proj2 (proj2 (@importJSON_rejects platform (fun _ => "new") "null" st)))).
    reflexivity.
  - apply (proj1 (proj2 (proj2 (proj2
             (@importJSON_rejects platform (fun _ => "new") TEXT_ITEMS_WITH_NULL st))))
             (mkDocument None None None ArrayWithNull)); reflexivity.
Defined.

(** The file whose text is [null]: the text parses, the value has no
    [items] array, and the handler shows the load error, not the
    invalid-file message. *)
Lemma importJSON_null_file :
  let platform := JSON_table [("null", ParsedNull)] print_summary in
  let st := mkState [Item.make (Some "a1") "Milk" 2 "Dairy" "" false 3 "L1"] true "Home" "L1" in
  @JSON_parse Parsed platform "null" = Some ParsedNull
  /\ @importJSON platform (fun _ => "new") "null" st = (st, Some MSG_LOAD_ERROR)
  /\ @importJSON platform (fun _ => "new") "null" st <> (st, Some MSG_INVALID_FILE).
Proof.
  intros platform st. split; [reflexivity |]. split; [reflexivity |].
  intros H. vm_compute in H. discriminate H.
Qed.


(** ** Sets and maps in insertion order *)

Lemma array_includes_In (l : list string) (x : string) :
  array_includes l x = true <-> In x l.
Proof.
  unfold array_includes. rewrite existsb_exists. split.
  - intros (y & Hy & E). apply String.eqb_eq in E. now subst.
  - intros H. exists x. split; [exact H | apply String.eqb_refl].
Qed.

Lemma array_includes_app (l1 l2 : list string) (x : string) :
  array_includes (l1 ++ l2) x = array_includes l1 x || array_includes l2 x.
Proof. apply existsb_app. Qed.

Lemma filter_and {A : Type} (p q : A -> bool) (l : list A) :
  filter p (filter q l) = filter (fun y => q y && p y) l.
Proof.
  induction l as [| a l IH]; simpl; [reflexivity |].
  destruct (q a); simpl; [destruct (p a) |]; now rewrite IH.
Qed.

Lemma first_seen_In (l : list string) (x : string) : In x (first_seen l) <-> In x l.
Proof.
  induction l as [| a l IH]; simpl; [tauto |].
  rewrite filter_In, IH, negb_true_iff, String.eqb_neq.
  destruct (string_dec a x) as [-> | Hne]; [tauto |].
  split.
  - intros [H | [H _]]; [contradiction | now right].
  - intros [H | H]; [contradiction | right; split; [exact H | congruence]].
Qed.

Lemma first_seen_NoDup (l : list string) : NoDup (first_seen l).
Proof.
  induction l as [| a l IH]; simpl; constructor.
  - rewrite filter_In, String.eqb_refl. intros [_ H]. discriminate.
  - now apply NoDup_filter.
Qed.

(** Inserting the elements of [l] one by one into the set [acc] appends to
    [acc], in the order of first occurrence, those that are not in it. *)
Lemma fold_Set_add (l acc : list string) :
  fold_left Set_add l acc
  = acc ++ filter (fun y => negb (array_includes acc y)) (first_seen l).
Proof.
  revert acc. induction l as [| x l IH]; intros acc; simpl.
  - now rewrite app_nil_r.
  - rewrite IH. unfold Set_add. destruct (array_includes acc x) eqn:E; simpl.
    + f_equal. rewrite filter_and. apply filter_ext_in. intros y _.
      destruct (y =? x)%string eqn:Eyx; simpl; [| reflexivity].
      apply String.eqb_eq in Eyx. subst. now rewrite E.
    + rewrite <- app_assoc. simpl. do 2 f_equal.
      rewrite filter_and. apply filter_ext. intros y.
      rewrite array_includes_app. simpl. rewrite orb_false_r.
      destruct (y =? x)%string, (array_includes acc y); reflexivity.
Qed.

Lemma Set_from_first_seen (l : list string) : Set_from l = first_seen l.
Proof.
  unfold Set_from. rewrite fold_Set_add. simpl.
  induction (first_seen l) as [| a r IH]; simpl; [reflexivity | now rewrite IH].
Qed.

Lemma NoDup_firstn {A : Type} (n : nat) (l : list A) : NoDup l -> NoDup (firstn n l).
Proof.
  intros H. rewrite <- (firstn_skipn n l) in H. now apply NoDup_app_remove_r in H.
Qed.

(** ** Suggestion engine *)

(** C7.  The suggestions are at most 12, without repetition.  The candidate
    pool is the starter vocabulary followed by the names in the list, each
    name kept once at its first occurrence.  For an empty query (the name
    field, trimmed) the result is the first 12 entries of the pool;
    otherwise it is the first 12, in pool order, of the entries that contain
    the query as a substring. *)
Theorem updateSuggestions_spec (input : string) (its : list Item.t) :
  (List.length (updateSuggestions input its) <= 12)%nat
  /\ NoDup (updateSuggestions input its)
  /\ pool its = first_seen (STARTER_SUGGESTIONS ++ map Item.name its)
  /\ NoDup (pool its)
  /\ (forall x, In x (pool its)
                <-> In x STARTER_SUGGESTIONS \/ exists it, In it its /\ Item.name it = x)
  /\ (trim input = "" -> updateSuggestions input its = firstn 12 (pool its))
  /\ (trim input <> "" ->
      updateSuggestions input its
      = firstn 12 (filter (fun name => includes name (trim input)) (pool its)))
  /\ (forall name, includes name (trim input) = true
                   <-> exists a b, name = (a ++ trim input ++ b)%string).
Proof.
  assert (Hpool : pool its = first_seen (STARTER_SUGGESTIONS ++ map Item.name its))
    by apply Set_from_first_seen.
  assert (Hnd : NoDup (pool its)) by (rewrite Hpool; apply first_seen_NoDup).
  split; [| split; [| split; [| split; [| split; [| split; [| split]]]]]].
  - unfold updateSuggestions. destruct (truthy (trim input)); apply firstn_le_length.
  - unfold updateSuggestions. destruct (truthy (trim input)); cbn [negb];
      apply NoDup_firstn; [apply NoDup_filter |]; exact Hnd.
  - exact Hpool.
  - exact Hnd.
  - intros x. rewrite Hpool, first_seen_In, in_app_iff, in_map_iff. split.
    + intros [H | (it & Hn & Hin)]; [left; exact H | right; exists it; split; assumption].
    + intros [H | (it & Hin & Hn)]; [left; exact H | right; exists it; split; assumption].
  - intros H. unfold updateSuggestions. rewrite H. reflexivity.
  - intros H. apply truthy_true_iff in H. unfold updateSuggestions. rewrite H. reflexivity.
  - intros name. apply includes_substring.
Qed.

Lemma updateSuggestions_spec_witness :
  let its := [Item.make (Some "a1") "oat milk" 2 "" "" false 3 "L1";
              Item.make (Some "a2") "milk" 1 "" "" false 2 "L1";
              Item.make (Some "a3") "oat milk" 1 "" "" true 1 "L1"] in
  trim " milk " <> ""
  /\ updateSuggestions " milk " its
     = firstn 12 (filter (fun name => includes name (trim " milk ")) (pool its))
  /\ updateSuggestions " milk " its = ["oat milk"; "milk"].
Proof.
  intros its.
  assert (H : trim " milk " <> "") by (vm_compute; discriminate).
  split; [exact H |]. split.
  - destruct (updateSuggestions_spec " milk " its) as (_ & _ & _ & _ & _ & _ & Hq & _).
    exact (Hq H).
  - vm_compute. reflexivity.
Defined.

(** ** Renderer *)

Lemma Map_has_In (m : Groups) (k : string) : Map_has m k = true <-> In k (map fst m).
Proof.
  unfold Map_has. induction m as [| [k' g] m IH]; simpl.
  - split; [discriminate | tauto].
  - destruct (k' =? k)%string eqn:E.
    + apply String.eqb_eq in E. split; auto.
    + apply String.eqb_neq in E. rewrite IH. split; [auto | intros [H | H]; [contradiction | exact H]].
Qed.

Lemma Map_push_absent (m : Groups) (k : string) (it : Item.t) :
  ~ In k (map fst m) -> Map_push m k it = m.
Proof.
  induction m as [| [k' g] m IH]; simpl; intros H; [reflexivity |].
  destruct (k' =? k)%string eqn:E.
  - apply String.eqb_eq in E. tauto.
  - rewrite IH; tauto.
Qed.

Lemma Map_push_spec (m : Groups) (k : string) (it : Item.t) :
  NoDup (map fst m) ->
  Map_push m k it
  = map (fun e => (fst e, snd e ++ if (fst e =? k)%string then [it] else [])) m.
Proof.
  induction m as [| [k' g] m IH]; simpl; intros H; [reflexivity |].
  inversion H as [| x xs Hnotin Hnd]; subst.
  destruct (k' =? k)%string eqn:E.
  - f_equal. apply String.eqb_eq in E. subst k'.
    rewrite <- (Map_push_absent m k it Hnotin) at 1. now apply IH.
  - f_equal; [now rewrite app_nil_r | now apply IH].
Qed.

Lemma Map_push_new (m : Groups) (k : string) (it : Item.t) :
  ~ In k (map fst m) -> Map_push (m ++ [(k, [])]) k it = m ++ [(k, [it])].
Proof.
  induction m as [| [k' g] m IH]; simpl; intros H.
  - now rewrite String.eqb_refl.
  - destruct (k' =? k)%string eqn:E.
    + apply String.eqb_eq in E. tauto.
    + rewrite IH; tauto.
Qed.

Lemma group_step_present (m : Groups) (it : Item.t) :
  NoDup (map fst m) -> In (group_key it) (map fst m) ->
  group_step m it
  = map (fun e => (fst e, snd e ++ if key_is (fst e) it then [it] else [])) m.
Proof.
  intros Hnd Hin. unfold group_step. fold (group_key it).
  apply Map_has_In in Hin. rewrite Hin. rewrite Map_push_spec by exact Hnd.
  apply map_ext. intros e. unfold key_is. now rewrite String.eqb_sym.
Qed.

Lemma group_step_absent (m : Groups) (it : Item.t) :
  ~ In (group_key it) (map fst m) ->
  group_step m it = m ++ [(group_key it, [it])].
Proof.
  intros Hin. unfold group_step. fold (group_key it).
  destruct (Map_has m (group_key it)) eqn:E.
  - apply Map_has_In in E. contradiction.
  - now apply Map_push_new.
Qed.

Lemma map_fst_same {A B : Type} (f : A * B -> B) (m : list (A * B)) :
  map fst (map (fun e => (fst e, f e)) m) = map fst m.
Proof. rewrite map_map. now apply map_ext. Qed.

Lemma key_is_head (k : string) (x : Item.t) (r : list Item.t) :
  filter (key_is k) (x :: r)
  = (if key_is k x then [x] else []) ++ filter (key_is k) r.
Proof. simpl. now destruct (key_is k x). Qed.

Lemma filter_head {A : Type} (p : A -> bool) (a : A) (l : list A) :
  filter p (a :: l) = if p a then a :: filter p l else filter p l.
Proof. reflexivity. Qed.

Lemma fold_group_step (l : list Item.t) (acc : Groups) :
  NoDup (map fst acc) ->
  fold_left group_step l acc
  = map (fun e => (fst e, snd e ++ filter (key_is (fst e)) l)) acc
    ++ map (fun k => (k, filter (key_is k) l))
           (filter (fun k => negb (array_includes (map fst acc) k))
                   (first_seen (map group_key l))).
Proof.
  revert acc. induction l as [| x r IH]; intros acc Hnd.
  - simpl. rewrite app_nil_r. rewrite <- (map_id acc) at 1.
    apply map_ext. intros [k g]. simpl. now rewrite app_nil_r.
  - cbn [fold_left map first_seen].
    destruct (in_dec string_dec (group_key x) (map fst acc)) as [Hin | Hout].
    + rewrite (group_step_present acc x Hnd Hin).
      rewrite IH by (rewrite map_fst_same; exact Hnd).
      rewrite map_fst_same, map_map. cbn [fst snd].
      rewrite (filter_head _ (group_key x)).
      apply array_includes_In in Hin. rewrite Hin. cbn [negb].
      f_equal.
      * apply map_ext. intros e. rewrite key_is_head, app_assoc. reflexivity.
      * rewrite filter_and.
        assert (Hne : forall k, negb (array_includes (map fst acc) k) = true ->
                                key_is k x = false).
        { intros k Hk. unfold key_is. destruct (group_key x =? k)%string eqn:E; [| reflexivity].
          apply String.eqb_eq in E. subst k. rewrite Hin in Hk. discriminate. }
        rewrite (filter_ext_in
                   (fun y => negb (y =? group_key x)%string
                             && negb (array_includes (map fst acc) y))
                   (fun y => negb (array_includes (map fst acc) y))).
        -- apply map_ext_in. intros k Hk. apply filter_In in Hk as [_ Hk].
           rewrite key_is_head, (Hne k Hk). reflexivity.
        -- intros k _. destruct (negb (array_includes (map fst acc) k)) eqn:Hk.
           ++ specialize (Hne k Hk). unfold key_is in Hne.
              rewrite String.eqb_sym, Hne. reflexivity.
           ++ now rewrite andb_false_r.
    + rewrite (group_step_absent acc x Hout).
      assert (Hnd' : NoDup (map fst (acc ++ [(group_key x, [x])]))).
      { rewrite map_app. simpl. apply NoDup_app; [exact Hnd | repeat constructor; simpl; tauto |].
        intros k Hk [<- | []]. contradiction. }
      rewrite IH by exact Hnd'.
      rewrite !map_app. cbn [map fst snd].
      rewrite (filter_head _ (group_key x)).
      assert (Hx : array_includes (map fst acc) (group_key x) = false).
      { destruct (array_includes (map fst acc) (group_key x)) eqn:E; [| reflexivity].
        apply array_includes_In in E. contradiction. }
      rewrite Hx. cbn [negb map]. rewrite <- app_assoc. cbn [app].
      f_equal.
      * apply map_ext_in. intros [k g] Hk. cbn [fst snd].
        rewrite key_is_head.
        assert (E : key_is k x = false).
        { unfold key_is. destruct (group_key x =? k)%string eqn:E; [| reflexivity].
          apply String.eqb_eq in E. subst k. exfalso. apply Hout.
          apply in_map_iff. now exists (group_key x, g). }
        now rewrite E.
      * f_equal.
        -- f_equal. rewrite key_is_head.
           assert (E : key_is (group_key x) x = true) by apply String.eqb_refl.
           now rewrite E.
        -- rewrite filter_and.
           rewrite (filter_ext
                      (fun k => negb (array_includes (map fst acc ++ [group_key x]) k))
                      (fun y => negb (y =? group_key x)%string
                                && negb (array_includes (map fst acc) y))).
           ++ apply map_ext_in. intros k Hk. apply filter_In in Hk as [_ Hk].
              apply andb_true_iff in Hk as [Hk _].
              rewrite key_is_head. unfold key_is at 2.
              rewrite String.eqb_sym. apply negb_true_iff in Hk. now rewrite Hk.
           ++ intros k. rewrite array_includes_app. simpl. rewrite orb_false_r.
              destruct (k =? group_key x)%string, (array_includes (map fst acc) k); reflexivity.
Qed.

Lemma filter_all {A : Type} (l : list A) : filter (fun _ => true) l = l.
Proof. induction l as [| a l IH]; simpl; [reflexivity | now rewrite IH]. Qed.

Lemma groups_spec (l : list Item.t) :
  fold_left group_step l []
  = map (fun k => (k, filter (key_is k) l)) (first_seen (map group_key l)).
Proof.
  rewrite fold_group_step by constructor. simpl. now rewrite filter_all.
Qed.

Lemma Map_get_tabulate (G : string -> list Item.t) (ks : list string) (c : string) :
  Map_get (map (fun k => (k, G k)) ks) c
  = if array_includes ks c then Some (G c) else None.
Proof.
  induction ks as [| k ks IH]; simpl; [reflexivity |].
  rewrite (String.eqb_sym c k). destruct (k =? c)%string eqn:E; simpl; [| exact IH].
  apply String.eqb_eq in E. now subst.
Qed.

Lemma present_keys (l : list Item.t) (c : string) :
  array_includes (first_seen (map group_key l)) c = existsb (key_is c) l.
Proof.
  apply eq_true_iff_eq.
  rewrite array_includes_In, first_seen_In, in_map_iff, existsb_exists.
  unfold key_is. split; intros (it & H1 & H2); exists it.
  - split; [exact H2 | now apply String.eqb_eq].
  - split; [now apply String.eqb_eq | exact H1].
Qed.

Lemma filter_none {A : Type} (p : A -> bool) (l : list A) :
  existsb p l = false -> filter p l = [].
Proof.
  induction l as [| a l IH]; simpl; [reflexivity |].
  destruct (p a); simpl; [discriminate | exact IH].
Qed.

Lemma filter_some {A : Type} (p : A -> bool) (l : list A) :
  existsb p l = true -> exists a r, filter p l = a :: r.
Proof.
  induction l as [| a l IH]; simpl; [discriminate |].
  destruct (p a); simpl; [intros _; eauto | exact IH].
Qed.

Lemma flat_map_filter {A B : Type} (p : A -> bool) (f : A -> list B) (l : list A) :
  flat_map (fun a => if p a then f a else []) l = flat_map f (filter p l).
Proof.
  induction l as [| a l IH]; simpl; [reflexivity |].
  destruct (p a); simpl; now rewrite IH.
Qed.

Lemma flat_map_map {A B C : Type} (g : A -> B) (f : B -> list C) (l : list A) :
  flat_map f (map g l) = flat_map (fun a => f (g a)) l.
Proof. induction l as [| a l IH]; simpl; [reflexivity | now rewrite IH]. Qed.

(** The loop over [CATS]. *)
Lemma loop_cats (groups : Groups) (cs : list string) (acc : list Node * bool) :
  fold_left
    (fun (acc : list Node * bool) cat =>
       match Map_get groups cat with
       | Some (it :: r) => (fst acc ++ emit cat (it :: r), true)
       | _ => acc
       end)
    cs acc
  = (fst acc
     ++ flat_map (fun cat => match Map_get groups cat with
                             | Some (it :: r) => emit cat (it :: r)
                             | _ => []
                             end) cs,
     snd acc
     || existsb (fun cat => match Map_get groups cat with
                            | Some (_ :: _) => true
                            | _ => false
                            end) cs).
Proof.
  revert acc. induction cs as [| c cs IH]; intros [out has]; simpl.
  - now rewrite app_nil_r, orb_false_r.
  - rewrite IH. destruct (Map_get groups c) as [[| it r] |]; cbn [fst snd orb]; try reflexivity.
    rewrite <- app_assoc. now destruct has.
Qed.

(** The loop over the entries of the map. *)
Lemma loop_rest (groups : Groups) (acc : list Node * bool) :
  fold_left
    (fun (acc : list Node * bool) (entry : string * list Item.t) =>
       if negb (array_includes CATS (fst entry))
       then (fst acc ++ emit (fst entry) (snd entry), true)
       else acc)
    groups acc
  = (fst acc
     ++ flat_map (fun entry => if negb (array_includes CATS (fst entry))
                               then emit (fst entry) (snd entry) else []) groups,
     snd acc
     || existsb (fun entry => negb (array_includes CATS (fst entry))) groups).
Proof.
  revert acc. induction groups as [| e groups IH]; intros [out has]; cbn [fold_left].
  - simpl. now rewrite app_nil_r, orb_false_r.
  - rewrite IH. cbn [flat_map existsb].
    destruct (negb (array_includes CATS (fst e))); cbn [fst snd orb].
    + rewrite <- app_assoc. now destruct has.
    + reflexivity.
Qed.

Lemma emit_lookup (l : list Item.t) (cat : string) :
  match Map_get (map (fun k => (k, filter (key_is k) l)) (first_seen (map group_key l))) cat with
  | Some (it :: r) => emit cat (it :: r)
  | _ => []
  end
  = if existsb (key_is cat) l then emit cat (filter (key_is cat) l) else [].
Proof.
  rewrite Map_get_tabulate, present_keys.
  destruct (existsb (key_is cat) l) eqn:E; [| reflexivity].
  destruct (filter_some _ _ E) as (a & r & ->). reflexivity.
Qed.

Lemma shown_lookup (l : list Item.t) (cat : string) :
  match Map_get (map (fun k => (k, filter (key_is k) l)) (first_seen (map group_key l))) cat with
  | Some (_ :: _) => true
  | _ => false
  end
  = existsb (key_is cat) l.
Proof.
  rewrite Map_get_tabulate, present_keys.
  destruct (existsb (key_is cat) l) eqn:E; [| reflexivity].
  destruct (filter_some _ _ E) as (a & r & ->). reflexivity.
Qed.

(** C6.  [render] keeps the items that pass the filter (those not done for
    "todo", those done for "done", all of them for any other value), groups
    them by category (the fallback category for an item without one), and
    appends, for each category of [CATS] that has items, in the order of
    [CATS], a header and the cards of its items, then the same for every
    other category in the order in which the categories first occur; the
    cards of a group follow the order of the kept items.  The empty-list
    message is shown exactly when no item is kept, and nothing is appended
    then. *)
Theorem render_groups (filterValue : string) (its : list Item.t) :
  let filtered := select filterValue its in
  (filterValue = "todo" -> filtered = filter (fun it => negb (Item.done it)) its)
  /\ (filterValue = "done" -> filtered = filter (fun it => Item.done it) its)
  /\ (filterValue <> "todo" -> filterValue <> "done" -> filtered = its)
  /\ children (render filterValue its)
     = flat_map (fun cat => emit cat (filter (key_is cat) filtered))
                (filter (fun cat => existsb (key_is cat) filtered) CATS)
       ++ flat_map (fun cat => emit cat (filter (key_is cat) filtered))
                   (filter (fun cat => negb (array_includes CATS cat))
                           (first_seen (map group_key filtered)))
  /\ emptyMessageShown (render filterValue its)
     = match filtered with [] => true | _ :: _ => false end
  /\ (filtered = [] -> children (render filterValue its) = []).
Proof.
  intros filtered.
  assert (Hchildren :
    children (render filterValue its)
    = flat_map (fun cat => emit cat (filter (key_is cat) filtered))
               (filter (fun cat => existsb (key_is cat) filtered) CATS)
      ++ flat_map (fun cat => emit cat (filter (key_is cat) filtered))
                  (filter (fun cat => negb (array_includes CATS cat))
                          (first_seen (map group_key filtered)))).
  { unfold render. fold filtered. rewrite groups_spec, loop_rest, loop_cats.
    cbn [children fst snd app]. f_equal.
    - rewrite <- flat_map_filter. apply flat_map_ext. intros cat. apply emit_lookup.
    - rewrite flat_map_map. cbn [fst snd]. now rewrite <- flat_map_filter. }
  split; [| split; [| split; [| split; [| split]]]].
  - intros ->. reflexivity.
  - intros ->. reflexivity.
  - intros H1 H2. unfold filtered, select.
    apply String.eqb_neq in H1, H2. now rewrite H1, H2.
  - exact Hchildren.
  - unfold render. fold filtered. rewrite groups_spec, loop_rest, loop_cats.
    cbn [emptyMessageShown fst snd orb].
    destruct filtered as [| x l]; [reflexivity |].
    apply negb_false_iff, orb_true_iff.
    destruct (array_includes CATS (group_key x)) eqn:E.
    + left. apply existsb_exists. exists (group_key x). split.
      * now apply array_includes_In.
      * rewrite shown_lookup. simpl. unfold key_is at 1. now rewrite String.eqb_refl.
    + right. apply existsb_exists.
      exists (group_key x, filter (key_is (group_key x)) (x :: l)). split.
      * apply in_map_iff. exists (group_key x). split; [reflexivity |].
        apply first_seen_In. now left.
      * cbn [fst]. now rewrite E.
  - intros H. rewrite Hchildren, H. reflexivity.
Qed.

Lemma render_groups_witness :
  let its := [Item.make (Some "a1") "Milk" 2 "חלב" "" true 3 "L1";
              Item.make (Some "a2") "Leek" 1 "ירקות" "" false 2 "L1"] in
  select "done" its = [Item.make (Some "a1") "Milk" 2 "חלב" "" true 3 "L1"]
  /\ children (render "done" its)
     = [Header "חלב"; CardNode (mkCard (Some "a1") true "Milk" 2 "" "חלב")]
  /\ emptyMessageShown (render "done" its) = false.
Proof.
  intros its.
  destruct (render_groups "done" its) as (_ & Hdone & _ & Hchildren & Hshown & _).
  split; [| split].
  - rewrite (Hdone eq_refl). reflexivity.
  - rewrite Hchildren. vm_compute. reflexivity.
  - rewrite Hshown. reflexivity.
Defined.

(** * Further properties of the program *)

(** ** Toggling, removing and clearing *)

Lemma id_eqb_eq (a b : option string) : id_eqb a b = true <-> a = b.
Proof.
  destruct a as [x |], b as [y |]; simpl; try (split; congruence).
  rewrite String.eqb_eq. split; congruence.
Qed.

Lemma set_items_same (st : State) : set_items st (items st) = st.
Proof. now destruct st. Qed.

Lemma filter_keeps_all (keep : Item.t -> bool) (its : list Item.t) :
  Forall (fun it => keep it = true) its -> filter keep its = its.
Proof.
  induction 1 as [| it its Hit _ IH]; simpl; [reflexivity |].
  now rewrite Hit, IH.
Qed.

Lemma filter_satisfies (keep : Item.t -> bool) (its : list Item.t) :
  Forall (fun it => keep it = true) (filter keep its).
Proof. apply Forall_forall. intros it Hit. now apply filter_In in Hit. Qed.

(** Clearing the completed items leaves exactly the items that are not
    done, in the order they had ([kept_in_order]), and nothing else of the
    state changes; clearing again changes nothing. *)
Theorem clearDoneItems_idempotent (st : State) :
  clearDoneItems (clearDoneItems st) = clearDoneItems st
  /\ Forall (fun it => Item.done it = false) (items (clearDoneItems st))
  /\ (forall it, In it (items (clearDoneItems st))
                 <-> In it (items st) /\ Item.done it = false)
  /\ kept_in_order (fun it => negb (Item.done it)) (items st) (items (clearDoneItems st))
  /\ dark (clearDoneItems st) = dark st
  /\ listName (clearDoneItems st) = listName st
  /\ listId (clearDoneItems st) = listId st.
Proof.
  split; [| split; [| split; [| split]]].
  - unfold clearDoneItems, set_items. simpl. f_equal. apply filter_keeps_all, filter_satisfies.
  - simpl. eapply Forall_impl; [| apply filter_satisfies].
    intros it H. now apply negb_true_iff.
  - intros it. simpl. now rewrite filter_In, negb_true_iff.
  - simpl. induction (items st) as [| it l IH]; simpl; [constructor |].
    destruct (negb (Item.done it)) eqn:E; [now apply kept_keep | now apply kept_drop].
  - repeat split.
Qed.

(** The relation [kept_in_order] leaves one list only. *)
Lemma kept_in_order_unique (keep : Item.t -> bool) (before a b : list Item.t) :
  kept_in_order keep before a -> kept_in_order keep before b -> a = b.
Proof.
  intros Ha. revert b.
  induction Ha as [| it before a Hk _ IH | it before a Hk _ IH]; intros b Hb;
    inversion Hb; subst; try congruence.
  - f_equal. now apply IH.
  - now apply IH.
Qed.

(** Toggling the same identifier twice gives back the state, whatever the
    identifier and however many items carry it. *)
Theorem toggleDone_twice (id : option string) (st : State) :
  toggleDone id (toggleDone id st) = st.
Proof.
  destruct st as [its d n l]. unfold toggleDone, set_items. simpl. f_equal.
  rewrite map_map. rewrite <- (map_id its) at 2. apply map_ext.
  intros it. destruct (id_eqb (Item.id it) id) eqn:E; simpl; rewrite E; [| reflexivity].
  destruct it as [i nm q c nt dn t li]. simpl. now rewrite negb_involutive.
Qed.

Lemma unknown_id_no_op (id : option string) (st : State) :
  ~ In id (ids st) -> toggleDone id st = st /\ removeItem id st = st.
Proof.
  intros H. unfold ids in H. split.
  - unfold toggleDone. rewrite (toggle_other_ids id (items st) H). apply set_items_same.
  - unfold removeItem. rewrite filter_keeps_all; [apply set_items_same |].
    apply Forall_forall. intros it Hit. apply negb_true_iff.
    destruct (id_eqb (Item.id it) id) eqn:E; [| reflexivity].
    apply id_eqb_eq in E. exfalso. apply H. apply in_map_iff. now exists it.
Qed.

(** An identifier that no item carries: [toggleDone] and [removeItem] return
    the state they were given. *)
Theorem unknown_id_is_ignored (id : option string) (st : State) :
  ~ In id (ids st) -> toggleDone id st = st /\ removeItem id st = st.
Proof. exact (unknown_id_no_op id st). Qed.

Lemma unknown_id_is_ignored_witness :
  let st := mkState [Item.make (Some "a1") "Milk" 2 "Dairy" "" false 3 "L1";
                     Item.make None "Eggs" 12 "Dairy" "" true 2 "L1"]
                    false "Home" "L1" in
  toggleDone (Some "zz") st = st /\ removeItem (Some "zz") st = st.
Proof.
  intros st. apply unknown_id_is_ignored.
  simpl. intros [H | [H | []]]; discriminate.
Defined.

(** After a removal no item carries the identifier, the other items are all
    there, and removing again changes nothing. *)
Theorem removeItem_removes (id : option string) (st : State) :
  ~ In id (ids (removeItem id st))
  /\ (forall it, In it (items (removeItem id st))
                 <-> In it (items st) /\ Item.id it <> id)
  /\ removeItem id (removeItem id st) = removeItem id st.
Proof.
  assert (Hin : forall it, In it (items (removeItem id st))
                           <-> In it (items st) /\ Item.id it <> id).
  { intros it. simpl. rewrite filter_In, negb_true_iff.
    destruct (id_eqb (Item.id it) id) eqn:E.
    - apply id_eqb_eq in E. split; intros [H1 H2]; [discriminate | contradiction].
    - split; intros [H1 _]; split; auto.
      intros H. apply id_eqb_eq in H. congruence. }
  split; [| split].
  - unfold ids. intros H. apply in_map_iff in H as (it & Hid & Hit).
    apply Hin in Hit as [_ Hne]. contradiction.
  - exact Hin.
  - unfold removeItem, set_items. simpl. f_equal. apply filter_keeps_all, filter_satisfies.
Qed.

(** ** Adding *)

(** An add that creates an item, undone by removing the identifier it was
    given: the state is the one before the add, provided the identifier
    was not in the list. *)
Theorem add_then_remove (u : string) (now : Z) (inp : Inputs) (st : State) :
  (forall it, In it (items st) ->
              Item.name it = trim (itemName inp) -> Item.done it = true) ->
  ~ In (Some u) (ids st) ->
  removeItem (Some u) (addItem u now inp st) = st.
Proof.
  intros Hdone Hfresh.
  destruct (truthy (trim (itemName inp))) eqn:E.
  - rewrite addItem_create; [| exact E |].
    + unfold removeItem. simpl. rewrite String.eqb_refl. simpl.
      destruct (unknown_id_no_op (Some u) st Hfresh) as [_ H].
      exact H.
    + apply find_none_iff. intros x Hx. apply unfinished_named_false.
      intros [Hn Hd]. rewrite (Hdone x Hx Hn) in Hd. discriminate.
  - rewrite addItem_blank by exact E.
    now destruct (unknown_id_no_op (Some u) st Hfresh).
Qed.

Lemma add_then_remove_witness :
  let st := mkState [Item.make (Some "a1") "Milk" 2 "Dairy" "" true 3 "L1"] false "Home" "L1" in
  removeItem (Some "a2") (addItem "a2" 4 (mkInputs "Milk" "1" "Dairy" "") st) = st.
Proof.
  intros st. apply add_then_remove.
  - intros it [<- | []] _. reflexivity.
  - simpl. intros [H | []]. discriminate.
Defined.

Lemma addItem_leaves_unfinished (u : string) (now : Z) (inp : Inputs) (st : State) :
  trim (itemName inp) <> "" ->
  exists it, In it (items (addItem u now inp st))
             /\ Item.name it = trim (itemName inp) /\ Item.done it = false.
Proof.
  intros Hname.
  destruct (find (unfinished_named (trim (itemName inp))) (items st)) as [x |] eqn:F.
  - destruct (addItem_merge_general u now inp st Hname) as (l1 & t & l2 & _ & Hn & Hd & Hitems & _).
    + apply find_some in F as [Hin Hx]. apply unfinished_named_true in Hx. now exists x.
    + exists (Item.set_qty t (or_1 (Item.qty t) + read_qty (itemQty inp))).
      rewrite Hitems. split; [apply in_elt | now split].
  - rewrite addItem_create; [| now apply truthy_true_iff | exact F].
    eexists. split; [left; reflexivity | now split].
Qed.

(** After an add of a name that is not empty, the list has an item of that
    name that is not done; so a second add of the same name, right after,
    never makes the list longer. *)
Theorem add_same_name_again
  (u1 u2 : string) (now1 now2 : Z) (inp1 inp2 : Inputs) (st : State) :
  trim (itemName inp1) <> "" ->
  trim (itemName inp2) = trim (itemName inp1) ->
  (exists it, In it (items (addItem u1 now1 inp1 st))
              /\ Item.name it = trim (itemName inp1) /\ Item.done it = false)
  /\ List.length (items (addItem u2 now2 inp2 (addItem u1 now1 inp1 st)))
     = List.length (items (addItem u1 now1 inp1 st)).
Proof.
  intros Hname Hsame.
  pose proof (addItem_leaves_unfinished u1 now1 inp1 st Hname) as Hex.
  split; [exact Hex |].
  destruct (addItem_merge_general u2 now2 inp2 (addItem u1 now1 inp1 st))
    as (_ & _ & _ & _ & _ & _ & _ & Hlen).
  - now rewrite Hsame.
  - now rewrite Hsame.
  - exact Hlen.
Qed.

Lemma add_same_name_again_witness :
  let st := mkState [Item.make (Some "a1") "Milk" 2 "Dairy" "" true 3 "L1"] false "Home" "L1" in
  let st1 := addItem "a2" 4 (mkInputs "Milk" "1" "Dairy" "") st in
  List.length (items (addItem "a3" 5 (mkInputs " Milk" "4" "" "") st1))
  = List.length (items st1).
Proof.
  intros st st1.
  apply (add_same_name_again "a2" "a3" 4 5 (mkInputs "Milk" "1" "Dairy" "")
           (mkInputs " Milk" "4" "" "") st).
  - vm_compute. discriminate.
  - reflexivity.
Defined.

Lemma addItem_frame (u : string) (now : Z) (inp : Inputs) (st : State) :
  (ids (addItem u now inp st) = ids st \/ ids (addItem u now inp st) = Some u :: ids st)
  /\ dark (addItem u now inp st) = dark st
  /\ listName (addItem u now inp st) = listName st
  /\ listId (addItem u now inp st) = listId st.
Proof.
  unfold addItem, ids.
  destruct (truthy (trim (itemName inp))); simpl; [| auto].
  destruct (find _ (items st)); simpl.
  - rewrite ids_assign_first by reflexivity. auto.
  - auto.
Qed.

(** An add never drops or reorders an item: the identifiers of the list are
    those before, with at most the generated one put in front; theme, list
    name and list identifier are not touched. *)
Theorem addItem_keeps_the_rest (u : string) (now : Z) (inp : Inputs) (st : State) :
  (ids (addItem u now inp st) = ids st \/ ids (addItem u now inp st) = Some u :: ids st)
  /\ dark (addItem u now inp st) = dark st
  /\ listName (addItem u now inp st) = listName st
  /\ listId (addItem u now inp st) = listId st.
Proof. exact (addItem_frame u now inp st). Qed.

(** ** The page and its storage *)

Section PageProperties.

Context {JSON_items : JSON (list Item.t)} {JSON_bool : JSON bool}
        {JSON_document : JSON Parsed}.

Lemma saveState_loadState_fields (p : Partial) (u : string) (ls : Storage) :
  let before := loadState [] false u ls in
  let after := loadState [] false u (saveState p ls) in
  (forall v, partial_items p = Some v -> round_trips v -> loaded_items after = v)
  /\ (partial_items p = None -> loaded_items after = loaded_items before)
  /\ (forall v, partial_dark p = Some v -> round_trips v -> loaded_dark after = v)
  /\ (partial_dark p = None -> loaded_dark after = loaded_dark before)
  /\ (forall v, partial_listName p = Some v -> v <> "" -> loaded_listName after = v)
  /\ (partial_listName p = None -> loaded_listName after = loaded_listName before)
  /\ (forall v, partial_listId p = Some v -> v <> "" -> loaded_listId after = v)
  /\ (partial_listId p = None -> loaded_listId after = loaded_listId before).
Proof.
  destruct p as [pi pd pn pl]. unfold saveState, loadState.
  cbn [partial_items partial_dark partial_listName partial_listId
       loaded_items loaded_dark loaded_listName loaded_listId].
  repeat split.
  - intros v -> [Hparse Htruthy].
    destruct pd, pn, pl; cbn; now rewrite Htruthy, Hparse.
  - intros ->. destruct pd, pn, pl; reflexivity.
  - intros v -> [Hparse Htruthy].
    destruct pi, pn, pl; cbn; unfold or_else; now rewrite Htruthy, Hparse.
  - intros ->. destruct pi, pn, pl; reflexivity.
  - intros v -> Hv. apply truthy_true_iff in Hv.
    destruct pi, pd, pl; cbn; now rewrite Hv.
  - intros ->. destruct pi, pd, pl; reflexivity.
  - intros v -> Hv. apply truthy_true_iff in Hv.
    destruct pi, pd, pn; cbn; now rewrite Hv.
  - intros ->. destruct pi, pd, pn; reflexivity.
Qed.

(** What [saveState] writes, [loadState] reads back, and what it does not
    write stays as it was: for each of the four components, a value given
    to [saveState] is the one loaded afterwards (for a value the platform
    round-trips, for a name or identifier that is not empty), and a component
    left out is loaded as before the save. *)
Theorem saveState_then_loadState (p : Partial) (u : string) (ls : Storage) :
  let before := loadState [] false u ls in
  let after := loadState [] false u (saveState p ls) in
  (forall v, partial_items p = Some v -> round_trips v -> loaded_items after = v)
  /\ (partial_items p = None -> loaded_items after = loaded_items before)
  /\ (forall v, partial_dark p = Some v -> round_trips v -> loaded_dark after = v)
  /\ (partial_dark p = None -> loaded_dark after = loaded_dark before)
  /\ (forall v, partial_listName p = Some v -> v <> "" -> loaded_listName after = v)
  /\ (partial_listName p = None -> loaded_listName after = loaded_listName before)
  /\ (forall v, partial_listId p = Some v -> v <> "" -> loaded_listId after = v)
  /\ (partial_listId p = None -> loaded_listId after = loaded_listId before).
Proof. exact (saveState_loadState_fields p u ls). Qed.



Lemma handle_named (w : World) (e : Event) :
  named (world_state w) -> named (world_state (handle w e)).
Proof.
  intros H. destruct e as [[inp u0 now | id | id |] | | value | fresh text]; cbn [handle].
  - unfold on_addItem. destruct (negb (truthy (trim (itemName inp)))); [exact H |].
    exact (step_named (world_state w) (AddItem inp u0 now) H).
  - exact H.
  - exact H.
  - exact H.
  - exact H.
  - apply setListName_named. exact H.
  - unfold on_fileLoaded.
    destruct (JSON_parse text) as [[| data] |]; [exact H | | exact H].
    destruct (doc_items data); [exact H | | exact H].
    apply importJSON_named. exact H.
Qed.

(** The list name and the list identifier of the page are never empty:
    not after [loadState], given that the generator returns a non-empty
    identifier, and not after any sequence of events. *)
Theorem names_never_empty (u : string) (ls : Storage) (es : list Event) :
  u <> "" -> named (world_state (fold_left handle es (boot u ls))).
Proof.
  intros Hu.
  assert (H0 : named (world_state (boot u ls))) by (apply initial_state_named; exact Hu).
  revert H0. generalize (boot u ls).
  induction es as [| e es IH]; intros w Hw; simpl; [exact Hw |].
  apply IH. now apply handle_named.
Qed.

Lemma handle_listId_slot (w : World) (e : Event) :
  no_file e ->
  slot_listId (world_storage (handle w e)) = slot_listId (world_storage w)
  /\ listId (world_state (handle w e)) = listId (world_state w).
Proof.
  intros H. destruct e as [[inp u0 now | id | id |] | | value | fresh text];
    cbn [handle]; try contradiction; try (split; reflexivity).
  unfold on_addItem. destruct (negb (truthy (trim (itemName inp)))); [auto |].
  split; [reflexivity |]. cbn [world_state].
  now destruct (addItem_frame u0 now inp (world_state w)) as (_ & _ & _ & E).
Qed.

(** The generated list identifier is not stored.  When the page starts
    without a stored list identifier, it keeps the identifier [u] it
    generated through any events other than a file import, and none of them
    writes it: a new page on the same storage gets whatever the generator
    returns then. *)
Theorem generated_listId_is_not_stored
  (u u' : string) (ls : Storage) (es : list Event) :
  slot_listId ls = Null ->
  Forall no_file es ->
  listId (world_state (fold_left handle es (boot u ls))) = u
  /\ slot_listId (world_storage (fold_left handle es (boot u ls))) = Null
  /\ listId (reload u' (fold_left handle es (boot u ls))) = u'.
Proof.
  intros Hnull Hes.
  assert (H0 : listId (world_state (boot u ls)) = u
               /\ slot_listId (world_storage (boot u ls)) = Null).
  { split; [| exact Hnull]. unfold boot, initial_state, loadState. cbn. now rewrite Hnull. }
  revert H0. generalize (boot u ls).
  induction Hes as [| e es He _ IH]; intros w [Hid Hslot]; simpl.
  - repeat split; auto. unfold reload, initial_state, loadState. cbn. now rewrite Hslot.
  - apply IH. destruct (handle_listId_slot w e He) as [E1 E2]. now rewrite E1, E2.
Qed.

End PageProperties.

(** ** Import *)

Lemma ensure_ids_truthy (fresh : nat -> string) (l : list Item.t) (k : nat) :
  (forall j, fresh j <> "") ->
  Forall (fun it => id_truthy (Item.id it) = true) (ensure_ids fresh k l).
Proof.
  intros Hfresh. revert k. induction l as [| it l IH]; intros k; simpl; [constructor |].
  destruct (id_truthy (Item.id it)) eqn:E; constructor; auto.
  simpl. now apply truthy_true_iff.
Qed.

Lemma ensure_ids_names (fresh : nat -> string) (l : list Item.t) (k : nat) :
  map (fun it => Item.set_id it None) (ensure_ids fresh k l)
  = map (fun it => Item.set_id it None) l.
Proof.
  revert k. induction l as [| it l IH]; intros k; simpl; [reflexivity |].
  destruct (id_truthy (Item.id it)); simpl; now rewrite IH.
Qed.

(** A successful import replaces the list by the items of the file, in
    their order and unchanged apart from identifiers; whatever the list
    held before is gone, the theme is kept, and each item has a non-empty
    identifier, given that the generator returns non-empty identifiers. *)
Theorem import_replaces_the_list {JSON_document : JSON Parsed}
  (fresh : nat -> string) (text : string) (st : State)
  (data : Document) (its : list Item.t) :
  JSON_parse text = Some (ParsedObject data) ->
  doc_items data = ArrayOf its ->
  (forall j, fresh j <> "") ->
  Forall (fun it => id_truthy (Item.id it) = true) (items (fst (importJSON fresh text st)))
  /\ map (fun it => Item.set_id it None) (items (fst (importJSON fresh text st)))
     = map (fun it => Item.set_id it None) its
  /\ (forall st', items (fst (importJSON fresh text st'))
                  = items (fst (importJSON fresh text st)))
  /\ dark (fst (importJSON fresh text st)) = dark st.
Proof.
  intros P A Hfresh. unfold importJSON. rewrite P, A. simpl.
  split; [| split; [| split]].
  - now apply ensure_ids_truthy.
  - apply ensure_ids_names.
  - reflexivity.
  - reflexivity.
Qed.

Lemma import_replaces_the_list_witness :
  let its := [Item.make None "Milk" 2 "" "" false 3 "L1";
              Item.make (Some "a7") "Eggs" 12 "" "" true 2 "L1"] in
  let platform := JSON_table [("file", ParsedObject (mkDocument None None None (ArrayOf its)))]
                             (fun _ => "file") in
  let st := mkState [Item.make (Some "b1") "Soap" 1 "" "" false 9 "L2"] true "Other" "L2" in
  Forall (fun it => id_truthy (Item.id it) = true)
         (items (fst (@importJSON platform (fun _ => "new") "file" st)))
  /\ dark (fst (@importJSON platform (fun _ => "new") "file" st)) = true.
Proof.
  intros its platform st.
  destruct (@import_replaces_the_list platform (fun _ => "new") "file" st
              (mkDocument None None None (ArrayOf its)) its eq_refl eq_refl)
    as (H1 & _ & _ & H4).
  - intros j. discriminate.
  - split; assumption.
Defined.

(** The identifiers after [ensure_ids]: those of the file that are usable,
    and values of the generator from call [k] on. *)
Lemma ensure_ids_origin (fresh : nat -> string) (l : list Item.t) (k : nat) (x : option string) :
  In x (map Item.id (ensure_ids fresh k l)) ->
  (In x (map Item.id l) /\ id_truthy x = true)
  \/ exists j, (k <= j)%nat /\ x = Some (fresh j).
Proof.
  revert k. induction l as [| it l IH]; intros k; simpl; [tauto |].
  destruct (id_truthy (Item.id it)) eqn:E; simpl.
  - intros [<- | H]; [left; auto |].
    destruct (IH k H) as [[H1 H2] | H']; [left; auto | right; exact H'].
  - intros [<- | H]; [right; exists k; auto |].
    destruct (IH (S k) H) as [[H1 H2] | (j & Hj & ->)]; [left; auto |].
    right. exists j. split; [lia | reflexivity].
Qed.

Lemma ensure_ids_NoDup (fresh : nat -> string) (l : list Item.t) (k : nat) :
  NoDup (filter id_truthy (map Item.id l)) ->
  (forall i j, fresh i = fresh j -> i = j) ->
  (forall j, ~ In (Some (fresh j)) (map Item.id l)) ->
  NoDup (map Item.id (ensure_ids fresh k l)).
Proof.
  intros Hfile Hinj Hnew. revert k.
  induction l as [| it l IH]; intros k; simpl; [constructor |].
  assert (Hnew' : forall j, ~ In (Some (fresh j)) (map Item.id l)).
  { intros j H. apply (Hnew j). now right. }
  simpl in Hfile.
  destruct (id_truthy (Item.id it)) eqn:E; simpl.
  - inversion Hfile as [| x xs Hnotin Hnd]; subst.
    constructor; [| now apply IH].
    intros H. apply ensure_ids_origin in H as [[H1 H2] | (j & _ & Hj)].
    + apply Hnotin. apply filter_In. auto.
    + apply (Hnew j). left. exact Hj.
  - constructor; [| now apply IH].
    intros H. apply ensure_ids_origin in H as [[H1 _] | (j & Hj & Heq)].
    + exact (Hnew' k H1).
    + injection Heq as Heq. apply Hinj in Heq. lia.
Qed.

(** The identifiers of an imported list are pairwise distinct when the
    usable identifiers in the file are, the generator never returns the same
    value twice, and its values are not identifiers of the file. *)
Theorem import_keeps_identifiers_distinct {JSON_document : JSON Parsed}
  (fresh : nat -> string) (text : string) (st : State)
  (data : Document) (its : list Item.t) :
  JSON_parse text = Some (ParsedObject data) ->
  doc_items data = ArrayOf its ->
  NoDup (filter id_truthy (map Item.id its)) ->
  (forall i j, fresh i = fresh j -> i = j) ->
  (forall j, ~ In (Some (fresh j)) (map Item.id its)) ->
  NoDup (ids (fst (importJSON fresh text st))).
Proof.
  intros P A H1 H2 H3. unfold importJSON, ids. rewrite P, A. simpl.
  now apply ensure_ids_NoDup.
Qed.

Lemma tally_injective (i j : nat) : tally i = tally j -> i = j.
Proof.
  unfold tally. intros H.
  assert (L : forall n, String.length (string_of_list_ascii (repeat "x"%char n)) = n).
  { induction n as [| n IH]; simpl; [reflexivity | now rewrite IH]. }
  apply (f_equal String.length) in H. rewrite !L in H. lia.
Qed.

Lemma import_keeps_identifiers_distinct_witness :
  let its := [Item.make None "Milk" 2 "" "" false 3 "L1";
              Item.make (Some "a7") "Eggs" 12 "" "" true 2 "L1";
              Item.make (Some "") "Leek" 1 "" "" false 1 "L1"] in
  let platform := JSON_table [("file", ParsedObject (mkDocument None None None (ArrayOf its)))]
                             (fun _ => "file") in
  let st := mkState [] false "Home" "L1" in
  NoDup (ids (fst (@importJSON platform tally "file" st))).
Proof.
  intros its platform st.
  apply (@import_keeps_identifiers_distinct platform tally "file" st
           (mkDocument None None None (ArrayOf its)) its eq_refl eq_refl).
  - simpl. repeat constructor. simpl. tauto.
  - exact tally_injective.
  - intros j. simpl. intros [H | [H | [H | []]]]; discriminate.
Defined.

(** ** Export: the name of the file *)

Lemma ws2_not_ws1 (a b : ascii) : ws2 a b = true -> ws1 a = false.
Proof.
  unfold ws2, ws1. intros H. apply andb_true_iff in H as [H _].
  apply N.eqb_eq in H. now rewrite H.
Qed.

Lemma ws3_not_ws1 (a b c : ascii) : ws3 a b c = true -> ws1 a = false.
Proof.
  unfold ws3, ws1. intros H.
  repeat (apply orb_true_iff in H as [H | H]);
    repeat (apply andb_true_iff in H as [H ?]);
    apply N.eqb_eq in H; now rewrite H.
Qed.

Lemma ws3_not_ws2 (a b c : ascii) : ws3 a b c = true -> ws2 a b = false.
Proof.
  unfold ws3, ws2. intros H.
  repeat (apply orb_true_iff in H as [H | H]);
    repeat (apply andb_true_iff in H as [H ?]);
    apply N.eqb_eq in H; now rewrite H.
Qed.

Lemma replace_ws_blank (s : string) : blank s -> replace_ws true s = "".
Proof.
  induction 1 as [| a s Ha _ IH | a b s Hab _ IH | a b c s Habc _ IH]; cbn [replace_ws].
  - reflexivity.
  - now rewrite Ha.
  - now rewrite (ws2_not_ws1 a b Hab), Hab.
  - now rewrite (ws3_not_ws1 a b c Habc), (ws3_not_ws2 a b c Habc), Habc.
Qed.

Lemma replace_ws_blank_start (s : string) :
  blank s -> s <> "" -> replace_ws false s = "_".
Proof.
  intros H Hne. destruct H as [| a s Ha H | a b s Hab H | a b c s Habc H];
    [congruence | | |]; cbn [replace_ws].
  - now rewrite Ha, (replace_ws_blank s H).
  - now rewrite (ws2_not_ws1 a b Hab), Hab, (replace_ws_blank s H).
  - now rewrite (ws3_not_ws1 a b c Habc), (ws3_not_ws2 a b c Habc), Habc,
      (replace_ws_blank s H).
Qed.

Lemma replace_ws_not_empty (s : string) : s <> "" -> replace_ws false s <> "".
Proof.
  destruct s as [| a r1]; [congruence |]. intros _. cbn [replace_ws].
  destruct (ws1 a); [discriminate |].
  destruct r1 as [| b r2]; [discriminate |].
  destruct (ws2 a b); [discriminate |].
  destruct r2 as [| c r3]; [discriminate |].
  destruct (ws3 a b c); discriminate.
Qed.

Lemma bytes_app (s t : string) : bytes (s ++ t) = bytes s ++ bytes t.
Proof. unfold bytes. induction s as [| a s IH]; simpl; [reflexivity | now rewrite IH]. Qed.

Lemma replace_ws_bytes (n : nat) :
  forall (s : string) (in_run : bool),
    (String.length s <= n)%nat ->
    Forall (fun c => ws1 c = false) (bytes (replace_ws in_run s)).
Proof.
  induction n as [| n IH]; intros s in_run Hlen.
  - destruct s; [constructor | simpl in Hlen; lia].
  - assert (Hu : forall r t, Forall (fun c => ws1 c = false) (bytes t) ->
                             Forall (fun c => ws1 c = false) (bytes (underscore r t))).
    { intros r t Ht. destruct r; simpl; [exact Ht | constructor; [reflexivity | exact Ht]]. }
    destruct s as [| a r1]; [constructor |]. simpl in Hlen. cbn [replace_ws].
    destruct (ws1 a) eqn:Ea; [apply Hu, IH; lia |].
    assert (Hcopy : Forall (fun c => ws1 c = false) (bytes (String a (replace_ws false r1)))).
    { constructor; [exact Ea | apply IH; lia]. }
    destruct r1 as [| b r2]; [exact Hcopy |]. simpl in Hlen.
    destruct (ws2 a b); [apply Hu, IH; lia |].
    destruct r2 as [| c r3]; [exact Hcopy |]. simpl in Hlen.
    destruct (ws3 a b c); [apply Hu, IH; lia | exact Hcopy].
Qed.

(** The name of the exported file ends in ".json" and holds no space, tab
    or line break.  The fallback name "list" is used for the empty list
    name only; any other name gives its own text with each run of white
    space turned into one underscore, so a name of white space only gives
    "_.json". *)
Theorem download_name_cases (st : State) :
  (listName st = "" -> download_name st = "list.json")
  /\ (listName st <> "" ->
      download_name st = (replace_ws false (listName st) ++ ".json")%string)
  /\ (blank (listName st) -> listName st <> "" -> download_name st = "_.json")
  /\ Forall (fun c => ws1 c = false) (bytes (download_name st)).
Proof.
  unfold download_name. split; [| split; [| split]].
  - intros ->. reflexivity.
  - intros H. apply replace_ws_not_empty, truthy_true_iff in H.
    unfold or_else. now rewrite H.
  - intros Hb Hne. now rewrite (replace_ws_blank_start _ Hb Hne).
  - rewrite bytes_app. apply Forall_app. split.
    + unfold or_else. destruct (truthy (replace_ws false (listName st))).
      * apply (replace_ws_bytes (String.length (listName st))). lia.
      * repeat constructor.
    + repeat constructor.
Qed.

Lemma download_name_cases_witness :
  download_name (mkState [] false "my  shopping	list" "L1") = "my_shopping_list.json"
  /\ download_name (mkState [] false "  " "L1") = "_.json".
Proof.
  split.
  - rewrite (proj1 (proj2 (download_name_cases (mkState [] false "my  shopping	list" "L1"))));
      [reflexivity | discriminate].
  - apply (proj1 (proj2 (proj2 (download_name_cases (mkState [] false "  " "L1"))))).
    + simpl. repeat (apply blank_1; [reflexivity |]). apply blank_empty.
    + discriminate.
Defined.

(** ** Suggestion engine *)

Lemma pool_starter_first (its : list Item.t) :
  pool its
  = STARTER_SUGGESTIONS
    ++ filter (fun name => negb (array_includes STARTER_SUGGESTIONS name))
              (first_seen (map Item.name its)).
Proof.
  unfold pool, Set_from. rewrite fold_left_app.
  assert (E : fold_left Set_add STARTER_SUGGESTIONS [] = STARTER_SUGGESTIONS)
    by (vm_compute; reflexivity).
  rewrite E. apply fold_Set_add.
Qed.

(** The starter vocabulary always comes first in the pool, followed by the
    item names that are not in it.  For an empty query the suggestions are
    therefore the first 12 starter entries, whatever the list holds: the
    names of the list are suggested only once something is typed. *)
Theorem empty_query_suggests_starters (input : string) (its : list Item.t) :
  pool its
  = STARTER_SUGGESTIONS
    ++ filter (fun name => negb (array_includes STARTER_SUGGESTIONS name))
              (first_seen (map Item.name its))
  /\ (trim input = "" ->
      updateSuggestions input its = firstn 12 STARTER_SUGGESTIONS).
Proof.
  split; [apply pool_starter_first |].
  intros H. unfold updateSuggestions. rewrite H. cbn [truthy negb].
  rewrite pool_starter_first, firstn_app.
  replace (12 - List.length STARTER_SUGGESTIONS)%nat with 0%nat by reflexivity.
  cbn [firstn]. now rewrite app_nil_r.
Qed.

Lemma empty_query_suggests_starters_witness :
  updateSuggestions "  " [Item.make (Some "a1") "Quinoa" 2 "" "" false 3 "L1"]
  = firstn 12 STARTER_SUGGESTIONS.
Proof.
  apply (proj2 (empty_query_suggests_starters "  "
                  [Item.make (Some "a1") "Quinoa" 2 "" "" false 3 "L1"])).
  reflexivity.
Defined.

(** ** Renderer *)

(** The categories that get a header, in the order of their headers. *)
Lemma render_children (filterValue : string) (its : list Item.t) :
  children (render filterValue its)
  = flat_map (fun cat => emit cat (filter (key_is cat) (select filterValue its)))
             (filter (fun cat => existsb (key_is cat) (select filterValue its)) CATS
              ++ filter (fun cat => negb (array_includes CATS cat))
                        (first_seen (map group_key (select filterValue its)))).
Proof.
  unfold render. rewrite groups_spec, loop_rest, loop_cats.
  cbn [children fst snd app]. rewrite flat_map_app. f_equal.
  - rewrite <- flat_map_filter. apply flat_map_ext. intros cat. apply emit_lookup.
  - rewrite flat_map_map. cbn [fst snd]. now rewrite <- flat_map_filter.
Qed.

Lemma render_by_selection (f1 f2 : string) (l1 l2 : list Item.t) :
  select f1 l1 = select f2 l2 -> render f1 l1 = render f2 l2.
Proof. intros H. unfold render. now rewrite H. Qed.

Lemma cards_of_app (a b : list Node) : cards_of (a ++ b) = cards_of a ++ cards_of b.
Proof.
  induction a as [| [t | c] a IH]; simpl; [reflexivity | exact IH | now rewrite IH].
Qed.

Lemma headers_of_app (a b : list Node) : headers_of (a ++ b) = headers_of a ++ headers_of b.
Proof.
  induction a as [| [t | c] a IH]; simpl; [reflexivity | now rewrite IH | exact IH].
Qed.

Lemma cards_of_emit (cat : string) (group : list Item.t) :
  cards_of (emit cat group) = map card_of group.
Proof. unfold emit. simpl. induction group as [| it g IH]; simpl; [reflexivity | now rewrite IH]. Qed.

Lemma headers_of_emit (cat : string) (group : list Item.t) :
  headers_of (emit cat group) = [cat].
Proof. unfold emit. simpl. f_equal. induction group as [| it g IH]; simpl; auto. Qed.

Lemma cards_of_groups (G : string -> list Item.t) (ks : list string) :
  cards_of (flat_map (fun cat => emit cat (G cat)) ks) = map card_of (flat_map G ks).
Proof.
  induction ks as [| k ks IH]; cbn [flat_map]; [reflexivity |].
  now rewrite cards_of_app, cards_of_emit, IH, map_app.
Qed.

Lemma headers_of_groups (G : string -> list Item.t) (ks : list string) :
  headers_of (flat_map (fun cat => emit cat (G cat)) ks) = ks.
Proof.
  induction ks as [| k ks IH]; cbn [flat_map]; [reflexivity |].
  now rewrite headers_of_app, headers_of_emit, IH.
Qed.

Lemma split_by_test (p : Item.t -> bool) (l : list Item.t) :
  Permutation (filter p l ++ filter (fun it => negb (p it)) l) l.
Proof.
  induction l as [| it l IH]; simpl; [constructor |].
  destruct (p it); simpl.
  - now constructor.
  - apply Permutation_sym, Permutation_cons_app, Permutation_sym, IH.
Qed.

(** Grouping by a list of distinct keys that covers the keys of the items
    rearranges the items and loses none. *)
Lemma groups_cover (ks : list string) :
  forall l : list Item.t,
    NoDup ks ->
    (forall it, In it l -> In (group_key it) ks) ->
    Permutation (flat_map (fun k => filter (key_is k) l) ks) l.
Proof.
  induction ks as [| k ks IH]; intros l Hnd Hcover; simpl.
  - destruct l as [| it l]; [constructor |].
    exfalso. exact (Hcover it (or_introl eq_refl)).
  - inversion Hnd as [| x xs Hnotin Hnd']; subst.
    eapply Permutation_trans; [| apply (split_by_test (key_is k) l)].
    apply Permutation_app_head.
    assert (E : flat_map (fun k' => filter (key_is k') l) ks
                = flat_map (fun k' => filter (key_is k')
                                             (filter (fun it => negb (key_is k it)) l)) ks).
    { rewrite !flat_map_concat_map. f_equal. apply map_ext_in. intros k' Hk'.
      rewrite filter_and. apply filter_ext. intros it. unfold key_is.
      destruct (group_key it =? k')%string eqn:E1; [| now rewrite andb_false_r].
      apply String.eqb_eq in E1. subst k'.
      destruct (group_key it =? k)%string eqn:E2; [| reflexivity].
      apply String.eqb_eq in E2. subst k. contradiction. }
    rewrite E. apply IH; [exact Hnd' |].
    intros it Hit. apply filter_In in Hit as [Hit Hk].
    destruct (Hcover it Hit) as [Heq | H]; [| exact H].
    unfold key_is in Hk. rewrite <- Heq, String.eqb_refl in Hk. discriminate.
Qed.

Lemma header_keys_NoDup (l : list Item.t) :
  NoDup (filter (fun cat => existsb (key_is cat) l) CATS
         ++ filter (fun cat => negb (array_includes CATS cat))
                   (first_seen (map group_key l))).
Proof.
  apply NoDup_app.
  - apply NoDup_filter.
    assert (E : first_seen CATS = CATS) by (vm_compute; reflexivity).
    rewrite <- E. apply first_seen_NoDup.
  - apply NoDup_filter, first_seen_NoDup.
  - intros c H1 H2. apply filter_In in H1 as [H1 _]. apply filter_In in H2 as [_ H2].
    apply array_includes_In in H1. rewrite H1 in H2. discriminate.
Qed.

Lemma header_keys_cover (l : list Item.t) (c : string) :
  In c (filter (fun cat => existsb (key_is cat) l) CATS
        ++ filter (fun cat => negb (array_includes CATS cat))
                  (first_seen (map group_key l)))
  <-> exists it, In it l /\ group_key it = c.
Proof.
  rewrite in_app_iff, !filter_In, first_seen_In, in_map_iff, existsb_exists. split.
  - intros [[_ (it & Hit & Hk)] | [(it & Hk & Hit) _]]; exists it; split; auto.
    now apply String.eqb_eq.
  - intros (it & Hit & Hk).
    destruct (array_includes CATS c) eqn:E.
    + left. split; [now apply array_includes_In |].
      exists it. split; [exact Hit | now apply String.eqb_eq].
    + right. split; [now exists it | reflexivity].
Qed.

(** Every item that passes the filter gets exactly one card: the cards of
    the view are the cards of the kept items, rearranged.  The headers are
    pairwise different, and they are the categories of the kept items. *)
Theorem render_shows_each_item_once (filterValue : string) (its : list Item.t) :
  Permutation (cards_of (children (render filterValue its)))
              (map card_of (select filterValue its))
  /\ List.length (cards_of (children (render filterValue its)))
     = List.length (select filterValue its)
  /\ NoDup (headers_of (children (render filterValue its)))
  /\ (forall cat, In cat (headers_of (children (render filterValue its)))
                  <-> exists it, In it (select filterValue its) /\ group_key it = cat).
Proof.
  rewrite render_children.
  rewrite (cards_of_groups (fun cat => filter (key_is cat) (select filterValue its))).
  rewrite (headers_of_groups (fun cat => filter (key_is cat) (select filterValue its))).
  assert (P : Permutation
                (flat_map (fun cat => filter (key_is cat) (select filterValue its))
                   (filter (fun cat => existsb (key_is cat) (select filterValue its)) CATS
                    ++ filter (fun cat => negb (array_includes CATS cat))
                         (first_seen (map group_key (select filterValue its)))))
                (select filterValue its)).
  { apply groups_cover; [apply header_keys_NoDup |].
    intros it Hit. apply header_keys_cover. now exists it. }
  split; [| split; [| split]].
  - now apply Permutation_map.
  - rewrite length_map. now apply Permutation_length.
  - apply header_keys_NoDup.
  - apply header_keys_cover.
Qed.

(** Clearing the completed items shows what the filter "todo" showed
    before, under every filter but "done"; under "done" the view is then
    empty and the empty-list message is shown. *)
Theorem render_after_clearing (filterValue : string) (st : State) :
  (filterValue <> "done" ->
   render filterValue (items (clearDoneItems st)) = render "todo" (items st))
  /\ render "done" (items (clearDoneItems st)) = mkView [] true.
Proof.
  split.
  - intros Hne. apply render_by_selection. unfold select.
    apply String.eqb_neq in Hne. rewrite Hne. cbn [String.eqb]. simpl items.
    destruct (filterValue =? "todo")%string; [| reflexivity].
    apply filter_keeps_all, filter_satisfies.
  - assert (E : select "done" (items (clearDoneItems st)) = select "done" []).
    { unfold select. cbn [String.eqb]. simpl.
      induction (items st) as [| it l IH]; simpl; [reflexivity |].
      destruct (Item.done it) eqn:D; simpl; [exact IH | now rewrite D]. }
    rewrite (render_by_selection "done" "done" _ [] E). reflexivity.
Qed.

Lemma render_after_clearing_witness :
  let st := mkState [Item.make (Some "a1") "Milk" 2 "חלב" "" true 3 "L1";
                     Item.make (Some "a2") "Leek" 1 "ירקות" "" false 2 "L1"]
                    false "Home" "L1" in
  render "all" (items (clearDoneItems st)) = render "todo" (items st).
Proof.
  intros st. apply (proj1 (render_after_clearing "all" st)). discriminate.
Defined.

(** ** Transcription adapter *)

Example voice_examples :
  onresult " 2 חלב " (mkInputs "" "1" "c" "n") = mkInputs "חלב" "2" "c" "n"
  /\ onresult "milk  12" (mkInputs "" "1" "c" "n") = mkInputs "milk " "12" "c" "n"
  /\ onresult "milk 1234" (mkInputs "" "7" "c" "n") = mkInputs "milk 1234" "7" "c" "n"
  /\ onresult "2 milk 3" (mkInputs "" "1" "c" "n") = mkInputs "milk 3" "2" "c" "n"
  /\ onresult "1234 milk" (mkInputs "" "7" "c" "n") = mkInputs "1234 milk" "7" "c" "n".
Proof. repeat split; vm_compute; reflexivity. Qed.

Lemma text_of_cons (c : string) (l : list string) :
  text_of (c :: l) = (c ++ text_of l)%string.
Proof. reflexivity. Qed.

(** Every character is in one string of [chars], in order. *)
Lemma chars_text_len (n : nat) :
  forall s, (String.length s <= n)%nat ->
            text_of (chars s) = s /\ Forall (fun c => c <> "") (chars s).
Proof.
  induction n as [| n IH]; intros s Hlen.
  - destruct s; [split; [reflexivity | constructor] | simpl in Hlen; lia].
  - destruct s as [| a r1]; [split; [reflexivity | constructor] |].
    simpl in Hlen. cbn [chars].
    destruct (code a <? 192)%N.
    { destruct (IH r1 ltac:(lia)) as [E F]. split.
      - rewrite text_of_cons, E. reflexivity.
      - constructor; [discriminate | exact F]. }
    destruct r1 as [| b r2]; [split; [reflexivity | repeat constructor; discriminate] |].
    simpl in Hlen.
    destruct (code a <? 224)%N.
    { destruct (IH r2 ltac:(lia)) as [E F]. split.
      - rewrite text_of_cons, E. reflexivity.
      - constructor; [discriminate | exact F]. }
    destruct r2 as [| c r3]; [split; [reflexivity | repeat constructor; discriminate] |].
    simpl in Hlen.
    destruct (code a <? 240)%N.
    { destruct (IH r3 ltac:(lia)) as [E F]. split.
      - rewrite text_of_cons, E. reflexivity.
      - constructor; [discriminate | exact F]. }
    destruct r3 as [| d r4]; [split; [reflexivity | repeat constructor; discriminate] |].
    simpl in Hlen.
    destruct (IH r4 ltac:(lia)) as [E F]. split.
    + rewrite text_of_cons, E. reflexivity.
    + constructor; [discriminate | exact F].
Qed.

Lemma chars_text (s : string) : text_of (chars s) = s.
Proof. exact (proj1 (chars_text_len (String.length s) s (le_n _))). Qed.

Lemma chars_not_empty (s : string) : Forall (fun c => c <> "") (chars s).
Proof. exact (proj2 (chars_text_len (String.length s) s (le_n _))). Qed.

Lemma string_app_assoc (a b c : string) : ((a ++ b) ++ c = a ++ (b ++ c))%string.
Proof. induction a as [| x a IH]; simpl; [reflexivity | now rewrite IH]. Qed.

Lemma text_of_app (l1 l2 : list string) :
  text_of (l1 ++ l2) = (text_of l1 ++ text_of l2)%string.
Proof.
  induction l1 as [| c l1 IH]; [reflexivity |].
  cbn [app]. now rewrite !text_of_cons, IH, string_app_assoc.
Qed.

Lemma repeat_greedy_sound {R : Type} (p : string -> bool)
  (k : list string -> list string -> option R) (x : R) :
  forall (s taken : list string) (room : option nat),
    repeat_greedy p room s taken k = Some x ->
    exists t rest,
      s = t ++ rest
      /\ Forall (fun c => p c = true) t
      /\ (forall n, room = Some n -> (List.length t <= n)%nat)
      /\ k (rev taken ++ t) rest = Some x.
Proof.
  induction s as [| c r IH]; intros taken room H; cbn [repeat_greedy] in H.
  - exists [], []. rewrite (app_nil_r (rev taken)).
    split; [reflexivity | split; [constructor | split; [intros n _; simpl; lia | exact H]]].
  - assert (Hstop : k (rev taken) (c :: r) = Some x ->
                    exists t rest, c :: r = t ++ rest
                                   /\ Forall (fun c => p c = true) t
                                   /\ (forall n, room = Some n -> (List.length t <= n)%nat)
                                   /\ k (rev taken ++ t) rest = Some x).
    { intros Hk. exists [], (c :: r). rewrite (app_nil_r (rev taken)).
      split; [reflexivity | split; [constructor | split; [intros n _; simpl; lia | exact Hk]]]. }
    destruct (p c && has_room room) eqn:E; [| auto].
    destruct (repeat_greedy p (less_room room) r (c :: taken) k) as [y |] eqn:G; [| auto].
    injection H as ->. apply andb_true_iff in E as [Hc Hroom].
    destruct (IH _ _ G) as (t & rest & -> & Ht & Hn & Hk).
    exists (c :: t), rest. split; [reflexivity | split; [| split]].
    + now constructor.
    + intros n ->. destruct n as [| n]; [discriminate |].
      specialize (Hn n eq_refl). simpl. lia.
    + simpl in Hk. now rewrite <- app_assoc in Hk.
Qed.

Lemma match_pieces_sound (ps : list Piece) :
  forall (s : list string) (takes : list (list string)),
    match_pieces ps s = Some takes ->
    Forall2 fits ps takes /\ List.concat takes = s.
Proof.
  induction ps as [| p ps IH]; intros s takes H; cbn [match_pieces] in H.
  - destruct s; [| discriminate]. injection H as <-. split; [constructor | reflexivity].
  - apply repeat_greedy_sound in H as (t & rest & -> & Ht & Hn & Hk).
    simpl in Hk. destruct (at_least p <=? List.length t)%nat eqn:E; [| discriminate].
    destruct (match_pieces ps rest) as [ts |] eqn:M; [| discriminate].
    injection Hk as <-. destruct (IH _ _ M) as [F C]. split.
    + constructor; [| exact F]. repeat split; auto. now apply Nat.leb_le.
    + simpl. now rewrite C.
Qed.

Lemma digit_chunk (c : string) :
  is_digit c = true ->
  exists a, c = String a "" /\ (48 <= code a <= 57)%N.
Proof.
  destruct c as [| a [| b r]]; simpl; try discriminate.
  intros H. apply andb_true_iff in H as [H1 H2].
  apply N.leb_le in H1, H2. exists a. auto.
Qed.

Lemma digit_head_kept (a : ascii) (r : string) :
  (48 <= code a <= 57)%N -> trimStart (String a r) = String a r.
Proof.
  intros H. cbn [trimStart].
  assert (E1 : ws1 a = false).
  { unfold ws1. destruct (N.leb_spec 9 (code a)), (N.leb_spec (code a) 13),
      (N.eqb_spec (code a) 32); simpl; try reflexivity; lia. }
  assert (E2 : forall b, ws2 a b = false).
  { intros b. unfold ws2. destruct (N.eqb_spec (code a) 194); [lia | reflexivity]. }
  assert (E3 : forall b c, ws3 a b c = false).
  { intros b c. unfold ws3.
    destruct (N.eqb_spec (code a) 225), (N.eqb_spec (code a) 226),
      (N.eqb_spec (code a) 227), (N.eqb_spec (code a) 239); first [lia | reflexivity]. }
  rewrite E1. destruct r as [| b [| c r]]; try reflexivity.
  - now rewrite E2.
  - now rewrite E2, E3.
Qed.

Lemma parseInt_digit_head (a : ascii) (r : string) :
  (48 <= code a <= 57)%N -> parseInt (String a r) = digits None (String a r).
Proof.
  intros H. unfold parseInt. rewrite (digit_head_kept a r H).
  destruct a as [[] [] [] [] [] [] [] []]; try reflexivity;
    exfalso; cbv in H; destruct H as [H1 H2]; (apply H1 || apply H2); reflexivity.
Qed.

Lemma digits_value (t : list string) :
  Forall (fun c => is_digit c = true) t ->
  forall acc, 0 <= acc ->
    exists n, digits (Some acc) (text_of t) = Some n
              /\ 0 <= n < (acc + 1) * 10 ^ Z.of_nat (List.length t).
Proof.
  induction 1 as [| c t Hc _ IH]; intros acc Hacc.
  - exists acc. split; [reflexivity |]. simpl. lia.
  - apply digit_chunk in Hc as (a & -> & Ha).
    rewrite text_of_cons. cbn [String.append digits].
    assert (Hd : digit a = Some (Z.of_N (code a) - 48)).
    { unfold digit. destruct (N.leb_spec 48 (code a)), (N.leb_spec (code a) 57);
        simpl; try reflexivity; lia. }
    rewrite Hd.
    destruct (IH (10 * acc + (Z.of_N (code a) - 48)) ltac:(lia)) as (n & Hn & Hb).
    exists n. split; [exact Hn |].
    cbn [List.length]. rewrite Nat2Z.inj_succ, Z.pow_succ_r by lia.
    assert (0 < 10 ^ Z.of_nat (List.length t)) by (apply Z.pow_pos_nonneg; lia).
    nia.
Qed.

(** A text of one to three digits reads as a number between 0 and 999. *)
Lemma parseInt_digits (t : list string) :
  Forall (fun c => is_digit c = true) t ->
  (1 <= List.length t <= 3)%nat ->
  exists n, parseInt (text_of t) = Some n /\ 0 <= n <= 999.
Proof.
  intros Ht Hlen. destruct t as [| c t]; [simpl in Hlen; lia |].
  inversion Ht as [| c' t' Hc Ht']; subst.
  apply digit_chunk in Hc as (a & -> & Ha).
  rewrite text_of_cons. cbn [String.append].
  rewrite (parseInt_digit_head a _ Ha).
  cbn [digits].
  assert (Hd : digit a = Some (Z.of_N (code a) - 48)).
  { unfold digit. destruct (N.leb_spec 48 (code a)), (N.leb_spec (code a) 57);
      simpl; try reflexivity; lia. }
  rewrite Hd.
  destruct (digits_value t Ht' (10 * 0 + (Z.of_N (code a) - 48)) ltac:(lia)) as (n & Hn & Hb).
  exists n. split; [exact Hn |].
  simpl in Hlen.
  assert (10 ^ Z.of_nat (List.length t) <= 100).
  { destruct t as [| ? [| ? [| ? ?]]]; simpl in *; lia. }
  nia.
Qed.

Lemma space_chunks_blank (t : list string) :
  Forall (fun c => is_space c = true) t -> blank (text_of t).
Proof.
  induction 1 as [| c t Hc _ IH]; [constructor |].
  rewrite text_of_cons.
  destruct c as [| a [| b [| x [| y r]]]]; simpl in Hc; try discriminate; simpl.
  - now apply blank_1.
  - now apply blank_2.
  - now apply blank_3.
Qed.

Lemma text_not_empty (t : list string) :
  Forall (fun c => c <> "") t -> (1 <= List.length t)%nat -> text_of t <> "".
Proof.
  intros Ht Hlen. destruct t as [| c t]; [simpl in Hlen; lia |].
  inversion Ht; subst. rewrite text_of_cons. destruct c; [congruence | discriminate].
Qed.

Lemma Forall_app_parts {A : Type} (P : A -> Prop) (l1 l2 l3 : list A) :
  Forall P (l1 ++ l2 ++ l3) -> Forall P l1 /\ Forall P l2 /\ Forall P l3.
Proof.
  intros H. apply Forall_app in H as [H1 H]. apply Forall_app in H as [H2 H3]. auto.
Qed.

(** What a successful match says about the text, for a pattern of three
    pieces. *)
Lemma exec_three (p1 p2 p3 : Piece) (text : string) (m : list string) :
  captured p1 = true -> captured p2 = false -> captured p3 = true ->
  exec [p1; p2; p3] text = Some m ->
  exists t1 t2 t3,
    m = [text_of t1; text_of t3]
    /\ text = (text_of t1 ++ text_of t2 ++ text_of t3)%string
    /\ fits p1 t1 /\ fits p2 t2 /\ fits p3 t3
    /\ Forall (fun c => c <> "") (t1 ++ t2 ++ t3).
Proof.
  intros C1 C2 C3 H. unfold exec in H.
  destruct (match_pieces [p1; p2; p3] (chars text)) as [takes |] eqn:M; [| discriminate].
  injection H as <-.
  destruct (match_pieces_sound _ _ _ M) as [F C].
  inversion F as [| ? t1 ? r1 F1 Fr1]; subst.
  inversion Fr1 as [| ? t2 ? r2 F2 Fr2]; subst.
  inversion Fr2 as [| ? t3 ? r3 F3 Fr3]; subst.
  inversion Fr3; subst.
  exists t1, t2, t3. simpl in C. rewrite app_nil_r in C.
  repeat split; try apply F1; try apply F2; try apply F3.
  - unfold groups. simpl. now rewrite C1, C2, C3.
  - rewrite <- (chars_text text), <- C, !text_of_app. reflexivity.
  - rewrite C. apply chars_not_empty.
Qed.

(** A text made of digits has those digits as its characters. *)
Lemma chars_of_digits (t : list string) :
  Forall (fun c => is_digit c = true) t -> chars (text_of t) = t.
Proof.
  induction 1 as [| c t Hc _ IH]; [reflexivity |].
  apply digit_chunk in Hc as (a & -> & Ha).
  change (text_of (String a "" :: t)) with (String a (text_of t)).
  cbn [chars].
  replace (code a <? 192)%N with true by (symmetry; apply N.ltb_lt; lia).
  now rewrite IH.
Qed.

Lemma spoken_fields (transcript : string) (inp : Inputs) :
  exec QTY_THEN_NAME (trim transcript) <> None
  \/ exec NAME_THEN_QTY (trim transcript) <> None ->
  Forall (fun c => is_digit c = true) (chars (itemQty (onresult transcript inp)))
  /\ (1 <= List.length (chars (itemQty (onresult transcript inp))) <= 3)%nat
  /\ 1 <= read_qty (itemQty (onresult transcript inp)) <= 999
  /\ itemName (onresult transcript inp) <> ""
  /\ exists gap,
      blank gap /\ gap <> ""
      /\ (trim transcript
          = (itemQty (onresult transcript inp) ++ gap ++ itemName (onresult transcript inp))%string
          \/ trim transcript
             = (itemName (onresult transcript inp) ++ gap ++ itemQty (onresult transcript inp))%string).
Proof.
  intros Hmatch.
  assert (Hqty : forall t, fits DIGITS t -> 1 <= read_qty (text_of t) <= 999).
  { intros t (Ht & Hmin & Hmax). simpl in *.
    destruct (parseInt_digits t Ht) as (n & Hn & Hb); [split; [exact Hmin | now apply Hmax] |].
    unfold read_qty, or_1. rewrite Hn. destruct (n =? 0) eqn:E; [lia |].
    apply Z.eqb_neq in E. lia. }
  assert (Hdigits : forall t, fits DIGITS t ->
            Forall (fun c => is_digit c = true) (chars (text_of t))
            /\ (1 <= List.length (chars (text_of t)) <= 3)%nat).
  { intros t (Ht & Hmin & Hmax). simpl in *. rewrite (chars_of_digits t Ht).
    split; [exact Ht |]. split; [exact Hmin | now apply Hmax]. }
  unfold onresult.
  destruct (exec QTY_THEN_NAME (trim transcript)) as [m1 |] eqn:E1.
  - apply exec_three in E1 as (t1 & t2 & t3 & -> & Htext & F1 & F2 & F3 & Hne);
      [| reflexivity ..].
    apply Forall_app_parts in Hne as (N1 & N2 & N3).
    cbn [itemQty itemName group nth Nat.pred].
    split; [apply Hdigits, F1 |]. split; [apply Hdigits, F1 |]. split; [| split].
    + now apply Hqty.
    + apply text_not_empty; [exact N3 | apply F3].
    + exists (text_of t2). split; [| split].
      * apply space_chunks_blank, F2.
      * apply text_not_empty; [exact N2 | apply F2].
      * left. exact Htext.
  - destruct (exec NAME_THEN_QTY (trim transcript)) as [m2 |] eqn:E2.
    + apply exec_three in E2 as (t1 & t2 & t3 & -> & Htext & F1 & F2 & F3 & Hne);
        [| reflexivity ..].
      apply Forall_app_parts in Hne as (N1 & N2 & N3).
      cbn [itemQty itemName group nth Nat.pred].
      split; [apply Hdigits, F3 |]. split; [apply Hdigits, F3 |]. split; [| split].
      * now apply Hqty.
      * apply text_not_empty; [exact N1 | apply F1].
      * exists (text_of t2). split; [| split].
        -- apply space_chunks_blank, F2.
        -- apply text_not_empty; [exact N2 | apply F2].
        -- right. exact Htext.
    + exfalso. destruct Hmatch as [H | H]; now apply H.
Qed.

(** When the transcript matches one of the two patterns, the quantity
    field gets one to three characters, each of them a digit, so the
    quantity the add uses is between 1 and 999 (0 counts as 1); the name
    field is not empty; and the trimmed transcript is the quantity and the
    name, in one order or the other, with white space between them. *)
Theorem spoken_quantity_and_name (transcript : string) (inp : Inputs) :
  exec QTY_THEN_NAME (trim transcript) <> None
  \/ exec NAME_THEN_QTY (trim transcript) <> None ->
  Forall (fun c => is_digit c = true) (chars (itemQty (onresult transcript inp)))
  /\ (1 <= List.length (chars (itemQty (onresult transcript inp))) <= 3)%nat
  /\ 1 <= read_qty (itemQty (onresult transcript inp)) <= 999
  /\ itemName (onresult transcript inp) <> ""
  /\ exists gap,
      blank gap /\ gap <> ""
      /\ (trim transcript
          = (itemQty (onresult transcript inp) ++ gap ++ itemName (onresult transcript inp))%string
          \/ trim transcript
             = (itemName (onresult transcript inp) ++ gap ++ itemQty (onresult transcript inp))%string).
Proof. exact (spoken_fields transcript inp). Qed.

Lemma spoken_quantity_and_name_witness :
  Forall (fun c => is_digit c = true) (chars (itemQty (onresult "milk 000" (mkInputs "" "5" "" ""))))
  /\ (1 <= List.length (chars (itemQty (onresult "milk 000" (mkInputs "" "5" "" "")))) <= 3)%nat
  /\ 1 <= read_qty (itemQty (onresult "milk 000" (mkInputs "" "5" "" ""))) <= 999
  /\ itemName (onresult "milk 000" (mkInputs "" "5" "" "")) <> "".
Proof.
  destruct (spoken_quantity_and_name "milk 000" (mkInputs "" "5" "" ""))
    as (H1 & H2 & H3 & H4 & _).
  - right. vm_compute. discriminate.
  - split; [| split; [| split]]; assumption.
Defined.

Lemma digit_not_space (c : string) : is_digit c = true -> is_space c = false.
Proof.
  intros H. apply digit_chunk in H as (a & -> & Ha). simpl.
  unfold ws1. destruct (N.leb_spec 9 (code a)), (N.leb_spec (code a) 13),
    (N.eqb_spec (code a) 32); simpl; try reflexivity; lia.
Qed.

Lemma space_not_digit (c : string) : is_space c = true -> is_digit c = false.
Proof.
  intros H. destruct (is_digit c) eqn:E; [| reflexivity].
  apply digit_not_space in E. congruence.
Qed.

(** A repetition that can take exactly [t] and whose continuation then
    succeeds gives that result. *)
Lemma greedy_exact {R : Type} (p : string -> bool)
  (k : list string -> list string -> option R) (x : R) (rest : list string) :
  stops_at p rest ->
  forall (t taken : list string) (room : option nat),
    Forall (fun c => p c = true) t ->
    (forall n, room = Some n -> (List.length t <= n)%nat) ->
    k (rev taken ++ t) rest = Some x ->
    repeat_greedy p room (t ++ rest) taken k = Some x.
Proof.
  intros Hstop. induction t as [| c t IH]; intros taken room Ht Hroom Hk.
  - rewrite (app_nil_r (rev taken)) in Hk. cbn [app].
    destruct rest as [| c r]; cbn [repeat_greedy]; [exact Hk |].
    simpl in Hstop. now rewrite Hstop.
  - inversion Ht as [| c' t' Hc Ht']; subst. cbn [app repeat_greedy]. rewrite Hc.
    assert (Hr : has_room room = true).
    { destruct room as [[| n] |]; try reflexivity.
      specialize (Hroom 0%nat eq_refl). simpl in Hroom. lia. }
    rewrite Hr. cbn [andb]. rewrite (IH (c :: taken) (less_room room)); [reflexivity | exact Ht' | |].
    + intros n Hn. destruct room as [m |]; [| discriminate].
      injection Hn as <-. specialize (Hroom m eq_refl). simpl in Hroom. lia.
    + simpl. now rewrite <- app_assoc.
Qed.

(** A repetition whose continuation fails however much is taken gives what
    the continuation gives when nothing more is taken. *)
Lemma greedy_gives_back {R : Type} (p : string -> bool)
  (k : list string -> list string -> option R) :
  forall (s taken : list string) (room : option nat),
    (forall pre post, s = pre ++ post -> pre <> [] -> k (rev taken ++ pre) post = None) ->
    repeat_greedy p room s taken k = k (rev taken) s.
Proof.
  induction s as [| c r IH]; intros taken room Hfail; cbn [repeat_greedy]; [reflexivity |].
  destruct (p c && has_room room); [| reflexivity].
  rewrite IH.
  - simpl. rewrite (Hfail [c] r eq_refl); [reflexivity | discriminate].
  - intros pre post -> Hpre. simpl. rewrite <- app_assoc.
    apply (Hfail (c :: pre) post eq_refl). discriminate.
Qed.

(** An unbounded repetition runs through characters of its class. *)
Lemma greedy_through {R : Type} (p : string -> bool)
  (k : list string -> list string -> option R) (x : R) (rest : list string) :
  forall t taken : list string,
    Forall (fun c => p c = true) t ->
    repeat_greedy p None rest (rev t ++ taken) k = Some x ->
    repeat_greedy p None (t ++ rest) taken k = Some x.
Proof.
  induction t as [| c t IH]; intros taken Ht H; [exact H |].
  inversion Ht as [| c' t' Hc Ht']; subst. cbn [app repeat_greedy]. rewrite Hc.
  cbn [has_room less_room andb]. rewrite (IH (c :: taken) Ht'); [reflexivity |].
  simpl in H. now rewrite <- app_assoc in H.
Qed.

Lemma no_digit_first (ps : list Piece) (s : list string) :
  is_digit (hd "" s) = false -> match_pieces (DIGITS :: ps) s = None.
Proof.
  intros H. cbn [match_pieces class at_most at_least DIGITS].
  destruct s as [| c r]; cbn [repeat_greedy]; [reflexivity |].
  simpl in H. rewrite H. reflexivity.
Qed.

Lemma no_space_first (ps : list Piece) (s : list string) :
  stops_at is_space s -> match_pieces (SPACES :: ps) s = None.
Proof.
  intros H. cbn [match_pieces class at_most at_least SPACES].
  destruct s as [| c r]; cbn [repeat_greedy]; [reflexivity |].
  simpl in H. rewrite H. reflexivity.
Qed.

Lemma quantity_first_match (ds w name : list string) :
  fits DIGITS ds ->
  Forall (fun c => is_space c = true) w -> w <> [] ->
  Forall (fun c => is_dot c = true) name ->
  is_space (hd "" name) = false -> name <> [] ->
  match_pieces QTY_THEN_NAME (ds ++ w ++ name) = Some [ds; w; name].
Proof.
  intros (Hds & Hmin & Hmax) Hw Hwne Hname Hhead Hnne.
  simpl in Hds, Hmin, Hmax.
  unfold QTY_THEN_NAME. cbn [match_pieces].
  apply greedy_exact.
  - destruct w as [| c w]; [congruence |]. inversion Hw; subst. simpl.
    now apply space_not_digit.
  - exact Hds.
  - exact Hmax.
  - cbv beta. cbn [rev app class at_most at_least DIGITS].
    destruct (Nat.leb_spec 1 (List.length ds)) as [_ | Hlt]; [| lia].
    rewrite (greedy_exact is_space _ [w; name] name); [reflexivity | | exact Hw | discriminate |].
    + destruct name as [| c r]; [exact I | exact Hhead].
    + cbv beta. cbn [rev app class at_most at_least SPACES].
      assert (Hl : (1 <=? List.length w)%nat = true).
      { destruct w; [congruence | reflexivity]. }
      rewrite Hl.
      rewrite <- (app_nil_r name) at 1.
      rewrite (greedy_exact is_dot _ [name] []); [reflexivity | exact I | exact Hname | discriminate |].
      cbv beta. cbn [rev app class at_most at_least REST].
      assert (Hn : (1 <=? List.length name)%nat = true).
      { destruct name; [congruence | reflexivity]. }
      now rewrite Hn.
Qed.

Lemma no_quantity_in_digits (post : list string) :
  Forall (fun c => is_digit c = true) post ->
  match_pieces [SPACES; DIGITS] post = None.
Proof.
  intros H. apply no_space_first.
  destruct post as [| c r]; [exact I |]. inversion H; subst. simpl.
  now apply digit_not_space.
Qed.

Lemma match_pieces_cons (p : Piece) (ps : list Piece) (s : list string) :
  match_pieces (p :: ps) s
  = repeat_greedy (class p) (at_most p) s []
      (fun taken rest =>
         if (at_least p <=? List.length taken)%nat
         then option_map (cons taken) (match_pieces ps rest)
         else None).
Proof. reflexivity. Qed.

Lemma quantity_last_match (name ds : list string) (sp : string) :
  Forall (fun c => is_dot c = true) name -> name <> [] ->
  is_space sp = true ->
  fits DIGITS ds ->
  match_pieces NAME_THEN_QTY (name ++ sp :: ds) = Some [name; [sp]; ds].
Proof.
  intros Hname Hnne Hsp (Hds & Hmin & Hmax). simpl in Hds, Hmin, Hmax.
  assert (Hrest : match_pieces [SPACES; DIGITS] (sp :: ds) = Some [[sp]; ds]).
  { rewrite match_pieces_cons. change (sp :: ds) with ([sp] ++ ds).
    apply greedy_exact.
    - destruct ds as [| d r]; [exact I |]. inversion Hds; subst. simpl.
      now apply digit_not_space.
    - constructor; [exact Hsp | constructor].
    - discriminate.
    - cbv beta. cbn [rev app List.length Nat.leb class at_most at_least SPACES].
      rewrite match_pieces_cons. rewrite <- (app_nil_r ds) at 1.
      rewrite (greedy_exact is_digit _ [ds] []); [reflexivity | exact I | exact Hds | exact Hmax |].
      cbv beta. cbn [rev app class at_most at_least DIGITS match_pieces].
      destruct ds as [| d r]; [simpl in Hmin; lia | reflexivity]. }
  unfold NAME_THEN_QTY. rewrite match_pieces_cons.
  cbn [class at_most at_least REST].
  apply greedy_through; [exact Hname |].
  rewrite app_nil_r, greedy_gives_back.
  - rewrite rev_involutive, Hrest.
    destruct name; [congruence | reflexivity].
  - intros pre post Hsplit Hpre. rewrite rev_involutive.
    destruct pre as [| c pre]; [congruence |]. injection Hsplit as <- Hds'.
    assert (Hpost : Forall (fun c => is_digit c = true) post).
    { rewrite Hds' in Hds. now apply Forall_app in Hds as [_ H]. }
    rewrite (no_quantity_in_digits post Hpost).
    now destruct (1 <=? List.length (name ++ sp :: pre))%nat.
Qed.

Lemma last_of_app (l t : list string) (d : string) :
  t <> [] -> last (l ++ t) d = last t d.
Proof.
  intros Ht. induction l as [| c l IH]; [reflexivity |].
  cbn [app]. destruct (l ++ t) eqn:E; [| exact IH].
  destruct l; [simpl in E; congruence | discriminate].
Qed.

Lemma last_in_class (p : string -> bool) (t : list string) (d : string) :
  Forall (fun c => p c = true) t -> t <> [] -> p (last t d) = true.
Proof.
  induction 1 as [| c t Hc Ht IH]; [congruence |]. intros _.
  destruct t as [| c' t]; [exact Hc |]. apply IH. discriminate.
Qed.

Lemma no_digit_last (s : list string) :
  is_digit (last s "") = false -> match_pieces NAME_THEN_QTY s = None.
Proof.
  intros H. destruct (match_pieces NAME_THEN_QTY s) as [takes |] eqn:M; [| reflexivity].
  exfalso. destruct (match_pieces_sound _ _ _ M) as [F C].
  inversion F as [| ? t1 ? r1 F1 Fr1]; subst.
  inversion Fr1 as [| ? t2 ? r2 F2 Fr2]; subst.
  inversion Fr2 as [| ? t3 ? r3 F3 Fr3]; subst.
  inversion Fr3; subst.
  destruct F3 as (Hd & Hmin & _). simpl in Hd, Hmin.
  assert (Hne : t3 <> []) by (destruct t3; [simpl in Hmin; lia | discriminate]).
  simpl in H. rewrite app_nil_r, app_assoc, (last_of_app _ t3 "" Hne) in H.
  rewrite (last_in_class is_digit t3 "" Hd Hne) in H. discriminate.
Qed.

Lemma spoken_first (transcript : string) (inp : Inputs) (ds w name : list string) :
  chars (trim transcript) = ds ++ w ++ name ->
  Forall (fun c => is_digit c = true) ds -> (1 <= List.length ds <= 3)%nat ->
  Forall (fun c => is_space c = true) w -> w <> [] ->
  Forall (fun c => is_dot c = true) name -> name <> [] ->
  is_space (hd "" name) = false ->
  onresult transcript inp
  = mkInputs (text_of name) (text_of ds) (itemCat inp) (itemNote inp).
Proof.
  intros Hchars Hds Hlen Hw Hwne Hname Hnne Hhead.
  unfold onresult, exec. rewrite Hchars.
  rewrite quantity_first_match; auto.
  repeat split; simpl; try tauto; try lia. intros n [= <-]. lia.
Qed.

Lemma spoken_last (transcript : string) (inp : Inputs) (name ds : list string) (sp : string) :
  chars (trim transcript) = name ++ sp :: ds ->
  Forall (fun c => is_dot c = true) name -> name <> [] ->
  is_digit (hd "" name) = false ->
  is_space sp = true ->
  Forall (fun c => is_digit c = true) ds -> (1 <= List.length ds <= 3)%nat ->
  onresult transcript inp
  = mkInputs (text_of name) (text_of ds) (itemCat inp) (itemNote inp).
Proof.
  intros Hchars Hname Hnne Hhead Hsp Hds Hlen.
  unfold onresult, exec. rewrite Hchars.
  unfold QTY_THEN_NAME. rewrite no_digit_first.
  - cbn [option_map]. rewrite quantity_last_match; auto.
    repeat split; simpl; try tauto; try lia. intros n [= <-]. lia.
  - destruct name as [| c r]; [congruence | exact Hhead].
Qed.

(** A transcript that is, once trimmed, one to three digits, white space
    and a name that has no line break: the quantity field gets the digits
    and the name field the name. *)
Theorem quantity_spoken_first
  (transcript : string) (inp : Inputs) (ds w name : list string) :
  chars (trim transcript) = ds ++ w ++ name ->
  Forall (fun c => is_digit c = true) ds -> (1 <= List.length ds <= 3)%nat ->
  Forall (fun c => is_space c = true) w -> w <> [] ->
  Forall (fun c => is_dot c = true) name -> name <> [] ->
  is_space (hd "" name) = false ->
  onresult transcript inp
  = mkInputs (text_of name) (text_of ds) (itemCat inp) (itemNote inp).
Proof. exact (spoken_first transcript inp ds w name). Qed.

Lemma quantity_spoken_first_witness :
  onresult " 3  עגבניות" (mkInputs "" "1" "ירקות" "")
  = mkInputs "עגבניות" "3" "ירקות" "".
Proof.
  apply (quantity_spoken_first " 3  עגבניות" (mkInputs "" "1" "ירקות" "")
           ["3"] [" "; " "] (chars "עגבניות")).
  - reflexivity.
  - repeat constructor.
  - simpl. lia.
  - repeat constructor.
  - discriminate.
  - vm_compute. repeat constructor.
  - vm_compute. discriminate.
  - reflexivity.
Defined.

(** A transcript that is, once trimmed, a name that does not start with a
    digit and has no line break, one white space character and one to three
    digits: the quantity field gets the digits and the name field the name
    (with the white space it may end with). *)
Theorem quantity_spoken_last
  (transcript : string) (inp : Inputs) (name ds : list string) (sp : string) :
  chars (trim transcript) = name ++ sp :: ds ->
  Forall (fun c => is_dot c = true) name -> name <> [] ->
  is_digit (hd "" name) = false ->
  is_space sp = true ->
  Forall (fun c => is_digit c = true) ds -> (1 <= List.length ds <= 3)%nat ->
  onresult transcript inp
  = mkInputs (text_of name) (text_of ds) (itemCat inp) (itemNote inp).
Proof. exact (spoken_last transcript inp name ds sp). Qed.

Lemma quantity_spoken_last_witness :
  onresult "חלב 12" (mkInputs "" "1" "חלב" "")
  = mkInputs "חלב" "12" "חלב" "".
Proof.
  apply (quantity_spoken_last "חלב 12" (mkInputs "" "1" "חלב" "")
           (chars "חלב") ["1"; "2"] " ").
  - reflexivity.
  - vm_compute. repeat constructor.
  - vm_compute. discriminate.
  - reflexivity.
  - reflexivity.
  - repeat constructor.
  - simpl. lia.
Defined.

Lemma spoken_plain (u : string) (now : Z) (transcript : string) (inp : Inputs) (st : State) :
  (is_digit (hd "" (chars (trim transcript))) = false ->
   is_digit (last (chars (trim transcript)) "") = false ->
   onresult transcript inp
   = mkInputs (trim transcript) (itemQty inp) (itemCat inp) (itemNote inp))
  /\ (trim transcript = "" -> on_voice u now transcript inp st = st).
Proof.
  assert (H : is_digit (hd "" (chars (trim transcript))) = false ->
              is_digit (last (chars (trim transcript)) "") = false ->
              onresult transcript inp
              = mkInputs (trim transcript) (itemQty inp) (itemCat inp) (itemNote inp)).
  { intros H1 H2. unfold onresult, exec, QTY_THEN_NAME.
    now rewrite (no_digit_first _ _ H1), (no_digit_last _ H2). }
  split; [exact H |].
  intros E. unfold on_voice. rewrite H by (rewrite E; reflexivity).
  apply addItem_blank. cbn [itemName].
  assert (T : trim (trim transcript) = "") by (rewrite E; reflexivity).
  rewrite T. reflexivity.
Qed.

(** A transcript that, once trimmed, neither starts nor ends with a digit
    has no quantity: the name field gets the whole trimmed transcript and
    the quantity field keeps what it held.  An empty or blank transcript
    therefore adds nothing. *)
Theorem transcript_without_quantity
  (u : string) (now : Z) (transcript : string) (inp : Inputs) (st : State) :
  (is_digit (hd "" (chars (trim transcript))) = false ->
   is_digit (last (chars (trim transcript)) "") = false ->
   onresult transcript inp
   = mkInputs (trim transcript) (itemQty inp) (itemCat inp) (itemNote inp))
  /\ (trim transcript = "" -> on_voice u now transcript inp st = st).
Proof. exact (spoken_plain u now transcript inp st). Qed.

Lemma transcript_without_quantity_witness :
  onresult " oat milk " (mkInputs "" "4" "c" "n") = mkInputs "oat milk" "4" "c" "n"
  /\ on_voice "a1" 3 "   " (mkInputs "" "4" "c" "n") (mkState [] false "Home" "L1")
     = mkState [] false "Home" "L1".
Proof.
  destruct (transcript_without_quantity "a1" 3 " oat milk " (mkInputs "" "4" "c" "n")
              (mkState [] false "Home" "L1")) as [H _].
  destruct (transcript_without_quantity "a1" 3 "   " (mkInputs "" "4" "c" "n")
              (mkState [] false "Home" "L1")) as [_ H'].
  split; [apply H; reflexivity | apply H'; reflexivity].
Defined.

(** ** The page and its storage: instances *)

Lemma saveState_then_loadState_witness :
  let milk := Item.make (Some "a1") "Milk" 2 "Dairy" "" false 3 "L1" in
  let platform_items := JSON_table [("[milk]", [milk])] (fun _ => "[milk]") in
  let platform_bool :=
    JSON_table [("false", false); ("true", true)]
               (fun b : bool => if b then "true" else "false") in
  let ls := mkStorage (Value "[{") (Value "true") Null (Value "L7") in
  let p := mkPartial (Some [milk]) None (Some "Home") None in
  let after := @loadState _ _ platform_items platform_bool [] false "u"
                 (@saveState platform_items platform_bool p ls) in
  loaded_items after = [milk] /\ loaded_dark after = true
  /\ loaded_listName after = "Home" /\ loaded_listId after = "L7".
Proof.
  intros milk platform_items platform_bool ls p after.
  destruct (@saveState_then_loadState platform_items platform_bool p "u" ls)
    as (Hi & _ & _ & Hd & Hn & _ & _ & Hl).
  split; [| split; [| split]].
  - apply Hi; [reflexivity | split; reflexivity].
  - exact (eq_trans (Hd eq_refl) eq_refl).
  - apply Hn; [reflexivity | discriminate].
  - exact (eq_trans (Hl eq_refl) eq_refl).
Defined.


Lemma names_never_empty_witness :
  let platform_items := JSON_table [("[]", @nil Item.t)] (fun _ => "[]") in
  let platform_bool :=
    JSON_table [("false", false); ("true", true)]
               (fun b : bool => if b then "true" else "false") in
  let platform_document :=
    JSON_table [("file", ParsedObject (mkDocument None (Some "") None (ArrayOf [])))]
               (fun _ => "file") in
  named (world_state
           (fold_left (@handle platform_items platform_bool platform_document)
              [ListNameInput ""; FileLoaded tally "file"; DarkToggle]
              (@boot platform_items platform_bool "u1"
                 (mkStorage Null Null (Value "") Throws)))).
Proof.
  intros platform_items platform_bool platform_document.
  apply (@names_never_empty platform_items platform_bool platform_document).
  discriminate.
Defined.

Lemma generated_listId_is_not_stored_witness :
  let platform_items :=
    JSON_table [("[milk]", [Item.make (Some "a1") "Milk" 2 OTHERS "" false 5 "u1"])]
               (fun _ => "[milk]") in
  let platform_bool :=
    JSON_table [("false", false); ("true", true)]
               (fun b : bool => if b then "true" else "false") in
  let platform_document := JSON_table (@nil (string * Parsed)) (fun _ => "") in
  let w := fold_left (@handle platform_items platform_bool platform_document)
             [ListAction (AddItem (mkInputs "Milk" "2" "" "") "a1" 5);
              DarkToggle; ListNameInput "Week"]
             (@boot platform_items platform_bool "u1" (mkStorage Null Null Null Null)) in
  listId (world_state w) = "u1"
  /\ slot_listId (world_storage w) = Null
  /\ listId (@reload platform_items platform_bool "u2" w) = "u2".
Proof.
  intros platform_items platform_bool platform_document w.
  apply (@generated_listId_is_not_stored platform_items platform_bool platform_document).
  - reflexivity.
  - repeat constructor.
Defined.
